(** * Shallow embedding of the chess engine core (score.rs, evaluation.rs,
      hash.rs, moveorder.rs, search.rs, searchinterface.rs, uci.rs) *)

From Stdlib Require Import ZArith Lia Bool Strings.String Strings.Ascii List.
From stdpp Require Import base list.
Import ListNotations.
Open Scope Z_scope.

(* ===================================================================== *)
(** ** Fixed-width integer helpers *)
(* ===================================================================== *)

(** Two's-complement wrap-around of an [i16] (release-mode arithmetic). *)
Definition wrap_i16 (z : Z) : Z := ((z + 32768) mod 65536) - 32768.

(** [u64] wrap-around. *)
Definition U64_MOD : Z := 2 ^ 64.
Definition wrap_u64 (z : Z) : Z := z mod U64_MOD.

(** [u8::wrapping_sub]. *)
Definition wrapping_sub_u8 (a b : Z) : Z := (a - b) mod 256.

(** [u8::wrapping_add]. *)
Definition wrapping_add_u8 (a b : Z) : Z := (a + b) mod 256.

(* ===================================================================== *)
(** ** score.rs : BoardScore *)
(* ===================================================================== *)

(** [struct BoardScore { inner: i16 }]; the derived [Ord] compares [inner]. *)
Record BoardScore := BS { inner : Z }.

Definition BEST_SCORE : BoardScore := BS 32767.
Definition MATE : BoardScore := BS (32767 - 1).
Definition MATE_RANGE_BOTTOM : BoardScore := BS (inner MATE - 255).
Definition EVEN : BoardScore := BS 0.
Definition NO_SCORE : BoardScore := BS (-32768).

(** [const fn neg]: negation that keeps [NO_SCORE] fixed. *)
Definition bs_neg (s : BoardScore) : BoardScore :=
  if negb (inner s =? inner NO_SCORE) then BS (- inner s) else NO_SCORE.

Definition MATED : BoardScore := bs_neg MATE.
Definition MATED_RANGE_TOP : BoardScore := BS (inner MATED + 255).
Definition WORST_SCORE : BoardScore := bs_neg BEST_SCORE.

(** The derived comparisons on [BoardScore]. *)
Definition bs_lt (a b : BoardScore) : bool := inner a <? inner b.
Definition bs_le (a b : BoardScore) : bool := inner a <=? inner b.
Definition bs_eqb (a b : BoardScore) : bool := inner a =? inner b.

Definition is_mate_score (s : BoardScore) : bool :=
  bs_le MATE_RANGE_BOTTOM s ||
  (bs_le s MATED_RANGE_TOP && negb (bs_eqb s NO_SCORE)).

Definition increment_mate_plies (s : BoardScore) : BoardScore :=
  if bs_lt MATE_RANGE_BOTTOM s && bs_le s MATE then BS (inner s - 1)
  else if bs_lt s MATED_RANGE_TOP && bs_le MATED s then BS (inner s + 1)
  else s.

Definition decrement_mate_plies (s : BoardScore) : BoardScore :=
  if bs_le MATE_RANGE_BOTTOM s && bs_le s MATE then BS (inner s + 1)
  else if bs_le s MATED_RANGE_TOP && bs_le MATED s then BS (inner s - 1)
  else s.

(** [BoardScore::evaluation]. *)
Definition evaluation_score (e : Z) : BoardScore := BS e.

(** The values an [i16] holds. *)
Definition in_i16 (s : BoardScore) : Prop := -32768 <= inner s <= 32767.

(** [enum BoardScoreDescription], what [Display for BoardScore] prints:
    [cp <n>] or [mate <n>]. *)
Inductive BoardScoreDescription := Cp (cp : Z) | Mate (mate : Z).

(** [impl Into<BoardScoreDescription> for &BoardScore]; [i32] division
    truncates toward zero ([Z.quot]). *)
Definition score_description (s : BoardScore) : BoardScoreDescription :=
  if bs_le MATE_RANGE_BOTTOM s then Mate (Z.quot (inner MATE - inner s + 1) 2)
  else if bs_le s MATED_RANGE_TOP then Mate (Z.quot (inner MATED - inner s) 2)
  else Cp (inner s).

(* ===================================================================== *)
(** ** score.rs : BoundedScore *)
(* ===================================================================== *)

Inductive BoundedScore :=
| Exact (s : BoardScore)
| LowerBound (s : BoardScore)
| UpperBound (s : BoardScore).

Definition unwrap (b : BoundedScore) : BoardScore :=
  match b with Exact x | LowerBound x | UpperBound x => x end.

Definition bounded_neg (b : BoundedScore) : BoundedScore :=
  match b with
  | Exact x => Exact (bs_neg x)
  | LowerBound x => UpperBound (bs_neg x)
  | UpperBound x => LowerBound (bs_neg x)
  end.

Definition bounded_increment_mate_plies (b : BoundedScore) : BoundedScore :=
  match b with
  | Exact x => Exact (increment_mate_plies x)
  | LowerBound x => LowerBound (increment_mate_plies x)
  | UpperBound x => UpperBound (increment_mate_plies x)
  end.

Definition is_exact (b : BoundedScore) : bool :=
  match b with Exact _ => true | _ => false end.
Definition is_lowerbound (b : BoundedScore) : bool :=
  match b with LowerBound _ => true | _ => false end.
Definition is_upperbound (b : BoundedScore) : bool :=
  match b with UpperBound _ => true | _ => false end.

(** [PartialOrd::partial_cmp] on the inner [i16]. *)
Definition score_cmp (a b : BoardScore) : option comparison :=
  Some (Z.compare (inner a) (inner b)).

(** [impl PartialOrd for BoundedScore]: the match arms in source order. *)
Definition partial_cmp (x y : BoundedScore) : option comparison :=
  match x, y with
  | LowerBound a, LowerBound b
  | Exact a, Exact b
  | UpperBound a, UpperBound b => score_cmp a b
  | LowerBound a, Exact b
  | LowerBound a, UpperBound b
  | Exact a, UpperBound b =>
      if bs_le b a then score_cmp a b else None
  | Exact a, LowerBound b
  | UpperBound a, LowerBound b
  | UpperBound a, Exact b =>
      if bs_le a b then score_cmp a b else None
  end.

(** The operators [>] and [>=] derived from [partial_cmp]. *)
Definition bounded_gt (x y : BoundedScore) : bool :=
  match partial_cmp x y with Some Gt => true | _ => false end.
Definition bounded_ge (x y : BoundedScore) : bool :=
  match partial_cmp x y with Some Gt | Some Eq => true | _ => false end.

(* ===================================================================== *)
(** ** evaluation.rs *)
(* ===================================================================== *)

Inductive Color := White | Black.
Inductive Piece := Pawn | Knight | Bishop | Rook | Queen | King.

(** [BitBoard::popcnt] on a 64-bit board. *)
Definition popcnt (bb : Z) : Z :=
  fold_right (fun i acc => (if Z.testbit bb (Z.of_nat i) then 1 else 0) + acc) 0
    (seq 0 64).

Section Evaluation.
(** The board of the external chess crate, seen through its bitboards. *)
Variable Board : Type.
Variable color_combined : Board -> Color -> Z.
Variable pieces : Board -> Piece -> Z.

Definition evaluate_always_zero (_ : Board) : BoardScore := EVEN.

Definition evaluation (board : Board) : BoardScore := evaluate_always_zero board.

Definition evaluate_piece_values (board : Board) : BoardScore :=
  let white := color_combined board White in
  let black := color_combined board Black in
  let piece_balance (piece : Piece) : Z :=
    let ps := pieces board piece in
    let nbr_white_pieces := popcnt (Z.land ps white) in
    let nbr_black_pieces := popcnt (Z.land ps black) in
    wrap_i16 (nbr_white_pieces - nbr_black_pieces) in
  let evaluation := 0 in
  let evaluation := wrap_i16 (evaluation + wrap_i16 (900 * piece_balance Queen)) in
  let evaluation := wrap_i16 (evaluation + wrap_i16 (500 * piece_balance Rook)) in
  let evaluation := wrap_i16 (evaluation + wrap_i16 (300 * piece_balance Knight)) in
  let evaluation := wrap_i16 (evaluation + wrap_i16 (300 * piece_balance Bishop)) in
  let evaluation := wrap_i16 (evaluation + wrap_i16 (100 * piece_balance Pawn)) in
  evaluation_score evaluation.
End Evaluation.

(* ===================================================================== *)
(** ** hash.rs : HashEntry and HashMap *)
(* ===================================================================== *)

Inductive HashEntryKind := Unused | Deficient | Full.
Inductive BoardScoreType := ExactType | LowerBoundType | UpperBoundType.

(** [HashEntryInfo] packs the two fields into one byte; its doc comment gives
    this struct as the semantically equivalent form. *)
Record HashEntryInfo := { entry_kind : HashEntryKind; score_type : BoardScoreType }.

Definition is_used (i : HashEntryInfo) : bool :=
  match entry_kind i with Unused => false | _ => true end.

Definition score_type_from_score (s : BoundedScore) : BoardScoreType :=
  match s with
  | Exact _ => ExactType
  | LowerBound _ => LowerBoundType
  | UpperBound _ => UpperBoundType
  end.

(** The byte of [struct HashEntryInfo(u8)]: bits 0-1 the entry kind, bits
    2-3 the score type. [!0b11] and [!0b1100] are taken as [u8]. *)
Definition info_set_entry_kind (b : Z) (entry_kind : HashEntryKind) : Z :=
  Z.lor (Z.land b (Z.lnot 3 mod 256))
    (match entry_kind with Unused => 0 | Deficient => 1 | Full => 2 end).

Definition info_set_score_type (b : Z) (score_type : BoardScoreType) : Z :=
  Z.lor (Z.land b (Z.lnot 12 mod 256))
    (match score_type with ExactType => 0 | LowerBoundType => 4 | UpperBoundType => 8 end).

(** [HashEntryInfo::new]: both setters applied to [HashEntryInfo(0)]. *)
Definition info_new (entry_kind : HashEntryKind) (score_type : BoardScoreType) : Z :=
  info_set_score_type (info_set_entry_kind 0 entry_kind) score_type.

(** [HashEntryInfo::entry_kind]; [None] is the [unreachable!()] panic. *)
Definition info_entry_kind (b : Z) : option HashEntryKind :=
  let k := Z.land b 3 in
  if k =? 0 then Some Unused
  else if k =? 1 then Some Deficient
  else if k =? 2 then Some Full
  else None.

(** [HashEntryInfo::score_type]; [None] is the [unreachable!()] panic. *)
Definition info_score_type (b : Z) : option BoardScoreType :=
  let t := Z.land b 12 in
  if t =? 0 then Some ExactType
  else if t =? 4 then Some LowerBoundType
  else if t =? 8 then Some UpperBoundType
  else None.

(** [HashEntry::score] on the packed byte and the stored [BoardScore]. *)
Definition info_entry_score (b : Z) (score : BoardScore) : option BoundedScore :=
  match info_score_type b with
  | Some ExactType => Some (Exact score)
  | Some LowerBoundType => Some (LowerBound score)
  | Some UpperBoundType => Some (UpperBound score)
  | None => None
  end.

(** The additive constant of the slot search. *)
Definition SLOT_HASH_STEP : Z := 0x1000100010005.

(** [u64::rotate_left(11)]. *)
Definition rotl11 (x : Z) : Z := Z.lor (wrap_u64 (Z.shiftl x 11)) (Z.shiftr x 53).

Definition NUM_SLOTS_PER_HASH : nat := 4.

(** State of the [loop] in [get_slot_idx_for_hash]: either it returned the
    slots, or it carries the running hash and the slots found so far
    ([result[0..i]]). *)
Inductive SlotLoop := SlotsDone (l : list Z) | SlotsCont (x : Z) (res : list Z).

Section HashTable.
(** [chess::ChessMove] of the external crate. *)
Variable Move : Type.

Record HashEntry := {
  he_entry_type : HashEntryInfo;
  he_hash : Z;
  he_best_move : option Move;
  he_score : BoardScore;
  he_depth : nat;
  he_generation : Z
}.

(** The all-zero bytes of a freshly allocated slot. *)
Definition zero_entry : HashEntry :=
  {| he_entry_type := {| entry_kind := Unused; score_type := ExactType |};
     he_hash := 0; he_best_move := None; he_score := BS 0; he_depth := 0;
     he_generation := 0 |}.

Definition with_contents (hash : Z) (best_move : option Move)
    (score : BoundedScore) (depth : nat) : HashEntry :=
  {| he_entry_type := {| entry_kind := Full; score_type := score_type_from_score score |};
     he_hash := hash; he_best_move := best_move; he_score := unwrap score;
     he_depth := depth; he_generation := 0 |}.

(** [HashEntry::score]. *)
Definition entry_score (e : HashEntry) : BoundedScore :=
  match score_type (he_entry_type e) with
  | ExactType => Exact (he_score e)
  | LowerBoundType => LowerBound (he_score e)
  | UpperBoundType => UpperBound (he_score e)
  end.

Record HashMap := {
  hm_slots : list HashEntry;
  hm_count : nat;
  hm_capacity : Z;
  hm_generation : Z
}.

(** A zero-filled table of [nbr_entries] slots. *)
Definition hm_empty (nbr_entries : nat) : HashMap :=
  {| hm_slots := repeat zero_entry nbr_entries; hm_count := 0;
     hm_capacity := Z.of_nat nbr_entries; hm_generation := 0 |}.

(** [HashMap::new]: [size_of::<HashEntry>()] is 16. *)
Definition hm_new (megabytes : nat) : HashMap :=
  hm_empty (megabytes * 1024 * 1024 / 16).

(** [get_slot]; indices are always below the capacity (see C8). *)
Definition get_slot (hm : HashMap) (idx : Z) : HashEntry :=
  default zero_entry (hm_slots hm !! Z.to_nat idx).

Definition capacity (hm : HashMap) : Z := hm_capacity hm.
Definition filled (hm : HashMap) : nat := hm_count hm.

Definition new_generation (hm : HashMap) : HashMap :=
  {| hm_slots := hm_slots hm; hm_count := 0; hm_capacity := hm_capacity hm;
     hm_generation := wrapping_add_u8 (hm_generation hm) 1 |}.

Definition set_count (hm : HashMap) (c : nat) : HashMap :=
  {| hm_slots := hm_slots hm; hm_count := c; hm_capacity := hm_capacity hm;
     hm_generation := hm_generation hm |}.

(** The [for _ in 0..u64::BITS] loop: [k] iterations left. *)
Fixpoint slot_steps (cap : Z) (k : nat) (x : Z) (res : list Z) : SlotLoop :=
  match k with
  | O => SlotsCont x res
  | S k' =>
      let next_slot := x mod cap in
      if negb (existsb (Z.eqb next_slot) res) then
        let res' := res ++ [next_slot] in
        if (NUM_SLOTS_PER_HASH <=? length res')%nat then SlotsDone res'
        else slot_steps cap k' (rotl11 x) res'
      else slot_steps cap k' (rotl11 x) res
  end.

(** One pass of the outer [loop]: 64 rotations, then the wrapping add. *)
Definition slot_round (cap : Z) (x : Z) (res : list Z) : SlotLoop :=
  match slot_steps cap 64 x res with
  | SlotsDone l => SlotsDone l
  | SlotsCont x' res' => SlotsCont (wrap_u64 (x' + SLOT_HASH_STEP)) res'
  end.

Definition slot_continue (k : Z -> list Z -> SlotLoop) (s : SlotLoop) : SlotLoop :=
  match s with
  | SlotsDone l => SlotsDone l
  | SlotsCont x res => k x res
  end.

(** [Pos.to_nat p] passes of the outer loop, stopping at the first return. *)
Fixpoint slot_rounds_pos (cap : Z) (p : positive) (x : Z) (res : list Z) : SlotLoop :=
  match p with
  | xH => slot_round cap x res
  | xO p' => slot_continue (slot_rounds_pos cap p') (slot_rounds_pos cap p' x res)
  | xI p' => slot_continue (fun x' r' =>
               slot_continue (slot_rounds_pos cap p') (slot_rounds_pos cap p' x' r'))
               (slot_round cap x res)
  end.

(** [get_slot_idx_for_hash]. The source [loop] is unbounded; it is run here
    for 2^64 passes, which C8 shows is never exhausted when the capacity is
    at least 4. *)
Definition get_slot_idx_for_hash (cap : Z) (hash : Z) : list Z :=
  match slot_rounds_pos cap (2 ^ 64)%positive hash [] with
  | SlotsDone l => l
  | SlotsCont _ _ => []
  end.

Definition hm_get (hm : HashMap) (hash : Z) : option HashEntry :=
  let slot_idx := get_slot_idx_for_hash (hm_capacity hm) hash in
  match List.filter (fun e => (he_hash e =? hash) && is_used (he_entry_type e))
          (map (get_slot hm) slot_idx) with
  | [] => None
  | e :: _ => Some e
  end.

Definition get_existing_slot (hm : HashMap) (hash : Z) (slot_idx : list Z) : option Z :=
  find (fun i => he_hash (get_slot hm i) =? hash) slot_idx.

Definition get_empty_slot (hm : HashMap) (slot_idx : list Z) : option Z * HashMap :=
  match find (fun i => negb (is_used (he_entry_type (get_slot hm i)))) slot_idx with
  | Some i => (Some i, set_count hm (S (hm_count hm)))
  | None => (None, hm)
  end.

(** [sort_unstable_by_key(depth)] followed by [entries[0]]: an index of
    least depth. The model keeps the first of several equal depths, one of
    the orders the unstable sort may produce. *)
Fixpoint min_depth_from (hm : HashMap) (best : Z) (l : list Z) : Z :=
  match l with
  | [] => best
  | i :: l' =>
      if (he_depth (get_slot hm i) <? he_depth (get_slot hm best))%nat
      then min_depth_from hm i l' else min_depth_from hm best l'
  end.

(** [entries[0]] on an empty vector panics; the candidates are never empty. *)
Definition lowest_depth (hm : HashMap) (entries : list Z) : Z :=
  match entries with
  | [] => 0
  | i :: l => min_depth_from hm i l
  end.

Definition get_purgeable_slot (hm : HashMap) (slot_idx : list Z) : Z * HashMap :=
  let current_generation := hm_generation hm in
  let age i := wrapping_sub_u8 current_generation (he_generation (get_slot hm i)) in
  match find (fun i => 2 <=? age i) slot_idx with
  | Some idx => (idx, set_count hm (S (hm_count hm)))
  | None =>
      let entries := List.filter (fun i => 1 <=? age i) slot_idx in
      match entries with
      | _ :: _ => (lowest_depth hm entries, set_count hm (S (hm_count hm)))
      | [] => (lowest_depth hm slot_idx, hm)
      end
  end.

(** The choice of [slot_to_use] in [get_mut_or_new_slot], given [slot_idx]. *)
Definition select_slot (hm : HashMap) (hash : Z) (slot_idx : list Z) : Z * HashMap :=
  match get_existing_slot hm hash slot_idx with
  | Some slot => (slot, hm)
  | None =>
      match get_empty_slot hm slot_idx with
      | (Some slot, hm') => (slot, hm')
      | (None, hm') => get_purgeable_slot hm' slot_idx
      end
  end.

Definition get_mut_or_new_slot (hm : HashMap) (hash : Z) : Z * HashMap :=
  let slot_idx := get_slot_idx_for_hash (hm_capacity hm) hash in
  select_slot hm hash slot_idx.

(** [*slot = entry; slot.hash = hash; slot.generation = current_generation]. *)
Definition stamp (e : HashEntry) (hash generation : Z) : HashEntry :=
  {| he_entry_type := he_entry_type e; he_hash := hash; he_best_move := he_best_move e;
     he_score := he_score e; he_depth := he_depth e; he_generation := generation |}.

Definition write_slot (current_generation hash : Z) (entry : HashEntry)
    (slot : Z) (hm' : HashMap) : HashMap :=
  {| hm_slots := <[Z.to_nat slot := stamp entry hash current_generation]> (hm_slots hm');
     hm_count := hm_count hm'; hm_capacity := hm_capacity hm';
     hm_generation := hm_generation hm' |}.

Definition hm_insert (hm : HashMap) (hash : Z) (entry : HashEntry) : HashMap :=
  let current_generation := hm_generation hm in
  let '(slot, hm') := get_mut_or_new_slot hm hash in
  write_slot current_generation hash entry slot hm'.
End HashTable.

Arguments he_entry_type {Move}.
Arguments he_hash {Move}.
Arguments he_best_move {Move}.
Arguments he_score {Move}.
Arguments he_depth {Move}.
Arguments he_generation {Move}.
Arguments hm_slots {Move}.
Arguments hm_count {Move}.
Arguments hm_capacity {Move}.
Arguments hm_generation {Move}.
Arguments zero_entry {Move}.
Arguments with_contents {Move}.
Arguments hm_empty {Move}.
Arguments hm_new {Move}.
Arguments entry_score {Move}.
Arguments get_slot {Move}.
Arguments capacity {Move}.
Arguments filled {Move}.
Arguments new_generation {Move}.
Arguments set_count {Move}.
Arguments hm_get {Move}.
Arguments get_existing_slot {Move}.
Arguments get_empty_slot {Move}.
Arguments min_depth_from {Move}.
Arguments lowest_depth {Move}.
Arguments get_purgeable_slot {Move}.
Arguments select_slot {Move}.
Arguments get_mut_or_new_slot {Move}.
Arguments write_slot {Move}.
Arguments stamp {Move}.
Arguments hm_insert {Move}.
Arguments get_slot_idx_for_hash : simpl never.

(* ===================================================================== *)
(** ** moveorder.rs : MoveGenerator *)
(* ===================================================================== *)

Inductive GeneratorState := BestMoveState | Rest.

Section MoveOrder.
Variable Move : Type.
Context `{EqDecision Move}.
Variable Board : Type.
(** [MoveGen::new_legal]: the moves the legal generator yields, in order. *)
Variable legal_moves : Board -> list Move.

Record MoveGenerator := {
  mg_inner : list Move;
  mg_best_move : option Move;
  mg_generator_state : GeneratorState
}.

Definition MoveGenerator_new (position : Board) (best_move : option Move) : MoveGenerator :=
  {| mg_inner := legal_moves position;
     mg_best_move := best_move;
     mg_generator_state := match best_move with Some _ => BestMoveState | None => Rest end |}.

(** The [while let Some(m) = self.inner.next()] loop of the [Rest] state. *)
Fixpoint next_rest (best_move : option Move) (inner : list Move) : option Move * list Move :=
  match inner with
  | [] => (None, [])
  | m :: inner' =>
      match best_move with
      | Some b => if decide (m = b) then next_rest best_move inner' else (Some m, inner')
      | None => (Some m, inner')
      end
  end.

(** [Iterator::next]. *)
Definition mg_next (g : MoveGenerator) : option Move * MoveGenerator :=
  match mg_generator_state g with
  | BestMoveState =>
      (mg_best_move g,
       {| mg_inner := mg_inner g; mg_best_move := mg_best_move g; mg_generator_state := Rest |})
  | Rest =>
      let '(r, inner') := next_rest (mg_best_move g) (mg_inner g) in
      (r, {| mg_inner := inner'; mg_best_move := mg_best_move g; mg_generator_state := Rest |})
  end.

(** Calls of [next] that may still yield an item. *)
Definition mg_measure (g : MoveGenerator) : nat :=
  length (mg_inner g) + match mg_generator_state g with BestMoveState => 1 | Rest => 0 end.

(** Drive the iterator as a [for] loop does, for at most [fuel] calls of
    [next]; [None] when the fuel ran out before [next] returned [None]. *)
Fixpoint mg_collect (fuel : nat) (g : MoveGenerator) : option (list Move) :=
  match fuel with
  | O => None
  | S fuel' =>
      match mg_next g with
      | (None, _) => Some []
      | (Some m, g') => option_map (cons m) (mg_collect fuel' g')
      end
  end.

(** The items a [for] loop over the generator sees. *)
Definition mg_items (g : MoveGenerator) : list Move :=
  default [] (mg_collect (S (mg_measure g)) g).
End MoveOrder.

Arguments mg_inner {Move}.
Arguments mg_best_move {Move}.
Arguments mg_generator_state {Move}.
Arguments MoveGenerator_new {Move Board}.
Arguments mg_collect {Move _}.
Arguments mg_items {Move _}.
Arguments mg_measure {Move}.
Arguments mg_next {Move _}.

(* ===================================================================== *)
(** ** searchinterface.rs : StopConditions *)
(* ===================================================================== *)

(** The shared stop block. [movetime] is the field [search.rs] reads. *)
Record StopConditions := {
  is_running : bool;
  stop_now : bool;
  sc_depth : nat;
  movetime : Z
}.

Definition StopConditions_new : StopConditions :=
  {| is_running := false; stop_now := false; sc_depth := 255; movetime := 0 |}.

(* ===================================================================== *)
(** ** search.rs : Searcher *)
(* ===================================================================== *)

Definition DEPTH_MAX : nat := 255.

Section Search.
Variable Move : Type.
Context `{EqDecision Move}.
Variable Board : Type.
(** The external chess crate. *)
Variable get_hash : Board -> Z.
Variable legal_moves : Board -> list Move.
Variable make_move_new : Board -> Move -> Board.
(** [*position.checkers() != chess::EMPTY]. *)
Variable in_check : Board -> bool.
Variable color_combined : Board -> Color -> Z.
Variable pieces : Board -> Piece -> Z.
(** What the k-th poll of [should_stop_search] reads: the [stop_now] flag
    as the UCI thread has left it, and the milliseconds elapsed since
    [starttime]. *)
Variable stop_now_at : nat -> bool.
Variable elapsed_at : nat -> Z.

Record Searcher := {
  hashmap : HashMap Move;
  stop_conditions : StopConditions;
  nodes : nat;
  polls : nat
}.

Definition set_hashmap (st : Searcher) (hm : HashMap Move) : Searcher :=
  {| hashmap := hm; stop_conditions := stop_conditions st; nodes := nodes st; polls := polls st |}.
Definition incr_nodes (st : Searcher) : Searcher :=
  {| hashmap := hashmap st; stop_conditions := stop_conditions st; nodes := S (nodes st);
     polls := polls st |}.
Definition incr_polls (st : Searcher) : Searcher :=
  {| hashmap := hashmap st; stop_conditions := stop_conditions st; nodes := nodes st;
     polls := S (polls st) |}.

(** The condition [should_stop_search] tests at its k-th call. *)
Definition stop_condition_at (sc : StopConditions) (k : nat) : bool :=
  if stop_now_at k then true
  else if negb (movetime sc =? 0) then movetime sc <=? elapsed_at k
  else false.

Definition should_stop_search (st : Searcher) : bool * Searcher :=
  (stop_condition_at (stop_conditions st) (polls st), incr_polls st).

Definition static_evaluation (position : Board) : BoardScore :=
  evaluate_piece_values Board color_combined pieces position.

Definition leaf_evaluation (position : Board) (st : Searcher) : BoardScore * Searcher :=
  let st := incr_nodes st in
  if (0 <? length (legal_moves position))%nat then (static_evaluation position, st)
  else if in_check position then (MATED, st) else (EVEN, st).

(** The table probe: [Some] when the stored score is returned directly. *)
Definition probe_table (is_stopping : bool) (depth : nat) (alpha beta : BoardScore)
    (entry : option (HashEntry Move)) : option BoundedScore :=
  match entry with
  | None => None
  | Some e =>
      if is_stopping || (depth <=? he_depth e)%nat then
        match entry_score e with
        | Exact s => Some (Exact s)
        | LowerBound s => if is_stopping || bs_le beta s then Some (LowerBound s) else None
        | UpperBound s => if is_stopping || bs_le s alpha then Some (UpperBound s) else None
        end
      else None
  end.

(** The mutable locals of the move loop. *)
Record LoopState := {
  best_score : BoundedScore;
  best_move : option Move;
  any_moves : bool;
  deficient_search : bool;
  ls_alpha : BoardScore
}.

(** [for next_move in move_gen { ... }]; [rec] is the recursive call at
    [depth - 1]. *)
Fixpoint moves_loop
    (rec : Board -> BoardScore -> BoardScore -> Searcher -> BoundedScore * Searcher)
    (position : Board) (beta : BoardScore)
    (ms : list Move) (ls : LoopState) (st : Searcher) : LoopState * Searcher :=
  match ms with
  | [] => (ls, st)
  | next_move :: ms' =>
      let alpha := ls_alpha ls in
      let new_position := make_move_new position next_move in
      let '(child, st) := rec new_position
                             (bs_neg (decrement_mate_plies beta))
                             (bs_neg (decrement_mate_plies alpha)) st in
      (* [-x.increment_mate_plies()]: the method call binds tighter *)
      let search_score := bounded_neg (bounded_increment_mate_plies child) in
      let deficient :=
        deficient_search ls ||
        (bs_eqb (unwrap search_score) NO_SCORE ||
         (is_lowerbound search_score && bs_lt (unwrap search_score) beta) ||
         (is_upperbound search_score && bs_lt alpha (unwrap search_score))) in
      let '(bs, bm, alpha) :=
        if bounded_gt search_score (best_score ls) then
          (search_score, Some next_move,
           if negb (is_upperbound search_score) && bs_lt alpha (unwrap search_score)
           then unwrap search_score else alpha)
        else (best_score ls, best_move ls, alpha) in
      if negb (is_upperbound bs) && bs_le beta (unwrap bs) then
        ({| best_score := LowerBound (unwrap bs); best_move := bm; any_moves := true;
            deficient_search := deficient; ls_alpha := alpha |}, st)
      else
        moves_loop rec position beta ms'
          {| best_score := bs; best_move := bm; any_moves := true;
             deficient_search := deficient; ls_alpha := alpha |} st
  end.

(** After the loop: terminal positions, store depth and the table store. *)
Definition finish_node (position : Board) (depth : nat) (ls : LoopState) (st : Searcher)
    : BoundedScore * Searcher :=
  let '(best_score, depth) :=
    if any_moves ls then (best_score ls, depth)
    else ((if in_check position then Exact MATED else Exact EVEN), DEPTH_MAX) in
  let '(stopping, st) :=
    if deficient_search ls then (true, st) else should_stop_search st in
  let store_depth :=
    if stopping then (depth - 1)%nat
    else if is_exact best_score && is_mate_score (unwrap best_score) then DEPTH_MAX
    else depth in
  if negb (bs_eqb (unwrap best_score) NO_SCORE) then
    let hash_entry := with_contents (get_hash position) (best_move ls) best_score store_depth in
    (best_score, set_hashmap st (hm_insert (hashmap st) (get_hash position) hash_entry))
  else (best_score, st).

(** [alphabeta_search] (release build: the [debug_assert!]s are not run). *)
Fixpoint alphabeta_search (depth : nat) (position : Board) (alpha beta : BoardScore)
    (st : Searcher) {struct depth} : BoundedScore * Searcher :=
  let st := incr_nodes st in
  if bs_le BEST_SCORE alpha then (UpperBound MATE, st)
  else if bs_eqb beta WORST_SCORE then (LowerBound MATED, st)
  else
    let '(is_stopping, st) := should_stop_search st in
    let entry := hm_get (hashmap st) (get_hash position) in
    match probe_table is_stopping depth alpha beta entry with
    | Some r => (r, st)
    | None =>
        let previous_best_move :=
          match entry with Some e => he_best_move e | None => None end in
        match depth with
        | S d =>
            if negb is_stopping then
              let move_gen := MoveGenerator_new legal_moves position previous_best_move in
              let '(ls, st) :=
                moves_loop (fun p a b s => alphabeta_search d p a b s) position beta
                  (mg_items move_gen)
                  {| best_score := UpperBound NO_SCORE; best_move := None;
                     any_moves := false; deficient_search := false; ls_alpha := alpha |} st in
              finish_node position depth ls st
            else (LowerBound WORST_SCORE, st)
        | O =>
            if negb is_stopping then
              let '(s, st) := leaf_evaluation position st in (Exact s, st)
            else (LowerBound WORST_SCORE, st)
        end
    end.

(** [trace_pv]: the moves written into the PV string, in order. [nbr]
    counts the moves written; [fuel] bounds the [while let] loop, which
    runs at most 256 times. *)
Fixpoint pv_loop (hm : HashMap Move) (fuel nbr : nat) (position : Board) : list Move :=
  match fuel with
  | O => []
  | S fuel' =>
      match hm_get hm (get_hash position) with
      | Some hash_entry =>
          match he_best_move hash_entry with
          | Some best_move =>
              let nbr := S nbr in
              if (DEPTH_MAX <? nbr)%nat then [best_move]
              else best_move :: pv_loop hm fuel' nbr (make_move_new position best_move)
          | None => []
          end
      | None => []
      end
  end.

Definition trace_pv (hm : HashMap Move) (position : Board) : list Move :=
  pv_loop hm 256 0 position.

(** One [info] line, without its wall-clock fields. *)
Record InfoLine := {
  info_depth : nat;
  info_score : BoundedScore;
  info_nodes : nat;
  info_hashfull : Z;
  info_pv : list Move
}.

(** [for depth in 1..=Depth::MAX]; [remaining] counts the iterations left. *)
Fixpoint deepening (remaining depth : nat) (position : Board) (st : Searcher)
    : Searcher * list InfoLine :=
  match remaining with
  | O => (st, [])
  | S remaining' =>
      let '(stop, st) := should_stop_search st in
      if stop then (st, [])
      else if (sc_depth (stop_conditions st) <? depth)%nat then (st, [])
      else
        let '(score, st) := alphabeta_search depth position WORST_SCORE BEST_SCORE st in
        let hm := hashmap st in
        let line := {| info_depth := depth; info_score := score; info_nodes := nodes st;
                       info_hashfull := 1000 * Z.of_nat (filled hm) / capacity hm;
                       info_pv := trace_pv hm position |} in
        let '(st, lines) := deepening remaining' (S depth) position st in
        (st, line :: lines)
  end.

(** The statements of [search] before its deepening loop. *)
Definition search_entry (st : Searcher) : Searcher :=
  {| hashmap := new_generation (hashmap st); stop_conditions := stop_conditions st;
     nodes := 0; polls := polls st |}.

(** [search]: the final searcher, the [info] lines, and the [bestmove]
    ([None] where the two [expect]s panic). *)
Definition search (st : Searcher) (position : Board)
    : Searcher * list InfoLine * option Move :=
  let st := search_entry st in
  let '(st, lines) := deepening DEPTH_MAX 1 position st in
  let best_move :=
    match hm_get (hashmap st) (get_hash position) with
    | Some e => he_best_move e
    | None => None
    end in
  (st, lines, best_move).
End Search.

Arguments hashmap {Move}.
Arguments stop_conditions {Move}.
Arguments nodes {Move}.
Arguments polls {Move}.
Arguments set_hashmap {Move}.
Arguments incr_nodes {Move}.
Arguments incr_polls {Move}.
Arguments best_score {Move}.
Arguments best_move {Move}.
Arguments any_moves {Move}.
Arguments deficient_search {Move}.
Arguments ls_alpha {Move}.
Arguments probe_table {Move}.

(* ===================================================================== *)
(** ** uci.rs : the [go] and [position] commands *)
(* ===================================================================== *)

(** [from_str_radix] of [core] for an unsigned integer type of [bits] bits,
    radix 10: the digits of [s] accumulated left to right, each step checked
    for overflow. [None] is the [ParseIntError]. *)
Fixpoint parse_digits (bits acc : Z) (s : string) : option Z :=
  match s with
  | EmptyString => Some acc
  | String c s' =>
      let d := Z.of_nat (nat_of_ascii c) - 48 in
      if (0 <=? d) && (d <=? 9) then
        let acc := acc * 10 + d in
        if acc <? 2 ^ bits then parse_digits bits acc s' else None
      else None
  end.

(** [u8::from_str] ([bits] = 8) and [u32::from_str] ([bits] = 32): an empty
    string, a lone sign, and a ['-'] (a non-digit for unsigned types) are
    errors; one leading ['+'] is skipped. *)
Definition from_str_unsigned (bits : Z) (src : string) : option Z :=
  match src with
  | EmptyString => None
  | String c rest =>
      if (Ascii.eqb c "+" || Ascii.eqb c "-") && String.eqb rest "" then None
      else if Ascii.eqb c "+" then parse_digits bits 0 rest
      else parse_digits bits 0 src
  end%char.

Definition with_depth (sc : StopConditions) (d : Z) : StopConditions :=
  {| is_running := is_running sc; stop_now := stop_now sc; sc_depth := Z.to_nat d;
     movetime := movetime sc |}.

Definition with_movetime (sc : StopConditions) (t : Z) : StopConditions :=
  {| is_running := is_running sc; stop_now := stop_now sc; sc_depth := sc_depth sc;
     movetime := t |}.

(** The [loop] of [UciClient::command_go] over the words after [go];
    [arguments.next().unwrap_or("")] gives [""] when the value is missing.
    [None]: an [ERROR] line is printed and no search is started. *)
Fixpoint go_loop (stop_conditions : StopConditions) (arguments : list string)
    : option StopConditions :=
  match arguments with
  | [] => Some stop_conditions
  | w :: rest =>
      if String.eqb w "depth" then
        match rest with
        | [] =>
            match from_str_unsigned 8 "" with
            | Some d => Some (with_depth stop_conditions d)
            | None => None
            end
        | depth_str :: rest' =>
            match from_str_unsigned 8 depth_str with
            | Some d => go_loop (with_depth stop_conditions d) rest'
            | None => None
            end
        end
      else if String.eqb w "movetime" then
        match rest with
        | [] =>
            match from_str_unsigned 32 "" with
            | Some t => Some (with_movetime stop_conditions t)
            | None => None
            end
        | movetime_str :: rest' =>
            match from_str_unsigned 32 movetime_str with
            | Some t => go_loop (with_movetime stop_conditions t) rest'
            | None => None
            end
        end
      else None
  end%string.

(** [command_go]: the stop conditions handed to [SearchInterface::go]. *)
Definition command_go (arguments : list string) : option StopConditions :=
  go_loop StopConditions_new arguments.

Section UciPosition.
Variable Move : Type.
Context `{EqDecision Move}.
Variable Board : Type.
(** [ChessMove::from_str] of the external crate. *)
Variable parse_move : string -> option Move.
Variable legal_moves : Board -> list Move.
Variable make_move_new : Board -> Move -> Board.

(** [for move_str in arguments { ... }] of [command_position]: each move is
    parsed, looked for among the legal moves, and played; [None] is an
    early [return] after an [ERROR] line. *)
Fixpoint apply_moves (result_position : Board) (moves : list string) : option Board :=
  match moves with
  | [] => Some result_position
  | move_str :: rest =>
      match parse_move move_str with
      | None => None
      | Some next_move =>
          match find (fun legal_move => bool_decide (next_move = legal_move))
                  (legal_moves result_position) with
          | Some _ => apply_moves (make_move_new result_position next_move) rest
          | None => None
          end
      end
  end.

(** The [match arguments.next()] on the words after the board. *)
Definition position_moves (result_position : Board) (arguments : list string)
    : option Board :=
  match arguments with
  | [] => Some result_position
  | w :: rest => if String.eqb w "moves" then apply_moves result_position rest else None
  end.

(** [self.position] after [command_position] once the board is set up:
    replaced on success, kept on an early [return]. *)
Definition command_position_finish (self_position result_position : Board)
    (arguments : list string) : Board :=
  match position_moves result_position arguments with
  | Some p => p
  | None => self_position
  end.

End UciPosition.


(* ===================================================================== *)
(** * Definitions used by the properties *)
(* ===================================================================== *)

(** A position given by its bitboards and its side to move. *)
Record FenBoard := {
  fb_color : Color -> Z;
  fb_pieces : Piece -> Z;
  fb_side_to_move : Color
}.

(** [3qk3/8/8/8/8/8/8/4K3 b - - 0 1]: Black (to move) has king e8 and
    queen d8, White has king e1. Squares are numbered a1 = 0 ... h8 = 63. *)
Definition black_queen_up : FenBoard :=
  {| fb_color := fun c => match c with
                          | White => Z.shiftl 1 4
                          | Black => Z.lor (Z.shiftl 1 59) (Z.shiftl 1 60)
                          end;
     fb_pieces := fun p => match p with
                           | Queen => Z.shiftl 1 59
                           | King => Z.lor (Z.shiftl 1 4) (Z.shiftl 1 60)
                           | _ => 0
                           end;
     fb_side_to_move := Black |}.

(** The material balance each side has, in centipawns, from White's view. *)
Definition white_minus_black_material (b : FenBoard) : Z :=
  let bal p := popcnt (Z.land (fb_pieces b p) (fb_color b White))
             - popcnt (Z.land (fb_pieces b p) (fb_color b Black)) in
  900 * bal Queen + 500 * bal Rook + 300 * bal Knight + 300 * bal Bishop + 100 * bal Pawn.

Section MoveOrderAux.
Variable Move : Type.
Context `{EqDecision Move}.

Definition rest_items (best : option Move) (inner : list Move) : list Move :=
  match best with
  | Some b => List.filter (fun x => bool_decide (x <> b)) inner
  | None => inner
  end.
End MoveOrderAux.

Arguments rest_items {Move _}.

(** Two positions (hashes 1 and 2) whose one move leads to each other, like
    the knight shuffle Ng1-f3 Ng8-f6 Nf3-g1 Nf6-g8, with table entries whose
    best moves follow the cycle. *)
Definition cycle_make_move (b : Z) (_ : unit) : Z := 3 - b.

Definition cycle_table : HashMap unit :=
  hm_insert (hm_insert (hm_empty 8) 1 (with_contents 1 (Some tt) (Exact EVEN) 1%nat))
    2 (with_contents 2 (Some tt) (Exact EVEN) 1%nat).

Definition in_u64 (x : Z) : Prop := 0 <= x < U64_MOD.

(** The slots found so far: distinct, in range, fewer than four. *)
Definition slots_ok (cap : Z) (res : list Z) : Prop :=
  NoDup res /\ Forall (fun i => 0 <= i < cap) res /\ (length res < 4)%nat.

Definition slots_final (cap : Z) (l : list Z) : Prop :=
  NoDup l /\ Forall (fun i => 0 <= i < cap) l /\ length l = 4%nat.

(** [n] passes of the outer loop, counted in [nat]. *)
Fixpoint slot_rounds_nat (cap : Z) (n : nat) (x : Z) (res : list Z) : SlotLoop :=
  match n with
  | O => SlotsCont x res
  | S n' => slot_continue (slot_rounds_nat cap n') (slot_round cap x res)
  end.

(** The inverse of [SLOT_HASH_STEP] modulo 2^64 (the step is odd). *)
Definition SLOT_HASH_STEP_INV : Z := 2243116873466236109.

Section InsertAux.
Variable Move : Type.

(** How many generations behind the table a slot's entry is (wrapping). *)
Definition slot_age (hm : HashMap Move) (i : Z) : Z :=
  wrapping_sub_u8 (hm_generation hm) (he_generation (get_slot hm i)).

(** [insert] once the candidate slots [cands] are known. *)
Definition insert_into (hm : HashMap Move) (hash : Z) (entry : HashEntry Move)
    (cands : list Z) : HashMap Move :=
  let '(slot, hm') := select_slot hm hash cands in
  write_slot (hm_generation hm) hash entry slot hm'.

(** The rules of C4 for the slot [i] written and the map [hm2] after the
    insertion into [hm], with candidates [cands]. *)
Definition placement_rules (hm : HashMap Move) (hash : Z) (entry : HashEntry Move)
    (cands : list Z) (i : Z) (hm2 : HashMap Move) : Prop :=
  let kind c := entry_kind (he_entry_type (get_slot hm c)) in
  let depth c := he_depth (get_slot hm c) in
  In i cands /\
  get_slot hm2 i = stamp entry hash (hm_generation hm) /\
  he_generation (get_slot hm2 i) = hm_generation hm /\
  ((exists c, In c cands /\ he_hash (get_slot hm c) = hash) ->
     he_hash (get_slot hm i) = hash /\ hm_count hm2 = hm_count hm) /\
  ((forall c, In c cands -> he_hash (get_slot hm c) <> hash) ->
     (exists c, In c cands /\ kind c = Unused) ->
     kind i = Unused /\ hm_count hm2 = S (hm_count hm)) /\
  ((forall c, In c cands -> he_hash (get_slot hm c) <> hash) ->
     (forall c, In c cands -> kind c <> Unused) ->
     (exists c, In c cands /\ 2 <= slot_age hm c) ->
     2 <= slot_age hm i /\ hm_count hm2 = S (hm_count hm)) /\
  ((forall c, In c cands -> he_hash (get_slot hm c) <> hash) ->
     (forall c, In c cands -> kind c <> Unused) ->
     (forall c, In c cands -> slot_age hm c < 2) ->
     (exists c, In c cands /\ slot_age hm c = 1) ->
     slot_age hm i = 1 /\
     (forall c, In c cands -> slot_age hm c = 1 -> (depth i <= depth c)%nat) /\
     hm_count hm2 = S (hm_count hm)) /\
  ((forall c, In c cands -> he_hash (get_slot hm c) <> hash) ->
     (forall c, In c cands -> kind c <> Unused) ->
     (forall c, In c cands -> slot_age hm c < 2 /\ slot_age hm c <> 1) ->
     (forall c, In c cands -> (depth i <= depth c)%nat) /\ hm_count hm2 = hm_count hm).
End InsertAux.

Arguments slot_age {Move}.
Arguments insert_into {Move}.
Arguments placement_rules {Move}.

Section SearchAux.
Variable Move : Type.

Definition keeps_sc (f : Searcher Move -> BoundedScore * Searcher Move) : Prop :=
  forall s, stop_conditions (snd (f s)) = stop_conditions s.
End SearchAux.

Arguments keeps_sc {Move}.

(** A board with no legal moves, in check, and a fresh searcher. *)
Definition mated_search : nat -> Z -> BoardScore -> BoardScore -> Searcher unit ->
    BoundedScore * Searcher unit :=
  alphabeta_search unit Z (fun b => b) (fun _ => []) (fun b _ => b) (fun _ => true)
    (fun _ _ => 0) (fun _ _ => 0) (fun _ => false) (fun _ => 0).

Definition fresh_searcher : Searcher unit :=
  {| hashmap := hm_empty 8; stop_conditions := StopConditions_new; nodes := 0; polls := 0 |}.

(** The searcher of [mated_search] with its stop flag raised. *)
Definition stopped_search : nat -> Z -> BoardScore -> BoardScore -> Searcher unit ->
    BoundedScore * Searcher unit :=
  alphabeta_search unit Z (fun b => b) (fun _ => []) (fun b _ => b) (fun _ => true)
    (fun _ _ => 0) (fun _ _ => 0) (fun _ => true) (fun _ => 0).

(** The order [partial_cmp] gives the three bound kinds at equal scores:
    [UpperBound] < [Exact] < [LowerBound]. *)
Definition bound_rank (b : BoundedScore) : Z :=
  match b with UpperBound _ => 0 | Exact _ => 1 | LowerBound _ => 2 end.

(** [!color] of the external crate. *)
Definition swap_colors (c : Color) : Color :=
  match c with White => Black | Black => White end.

(** Decimal notation of a number, as a GUI sends it. *)
Definition digit_char (d : Z) : ascii := ascii_of_nat (48 + Z.to_nat d).

Fixpoint decimal_aux (fuel : nat) (n : Z) (acc : string) : string :=
  match fuel with
  | O => acc
  | S f =>
      let acc := String (digit_char (n mod 10)) acc in
      if n <? 10 then acc else decimal_aux f (n / 10) acc
  end.

Definition decimal (n : Z) : string := decimal_aux 20 n "".

(** The values [command_go] can produce. *)
Definition go_ok (sc : StopConditions) : Prop :=
  (sc_depth sc <= 255)%nat /\ 0 <= movetime sc < 2 ^ 32 /\
  is_running sc = false /\ stop_now sc = false.

Section TraceAux.
Variable Move : Type.
Variable Board : Type.
Variable get_hash : Board -> Z.
Variable legal_moves : Board -> list Move.
Variable make_move_new : Board -> Move -> Board.

(** Each move of [ms] is the best move stored in [hm] for the position the
    moves before it lead to. *)
Fixpoint pv_follows (hm : HashMap Move) (position : Board) (ms : list Move) : Prop :=
  match ms with
  | [] => True
  | m :: ms' =>
      (exists e, hm_get hm (get_hash position) = Some e /\ he_best_move e = Some m) /\
      pv_follows hm (make_move_new position m) ms'
  end.

(** The moves [ms] are legal in turn from [position]. *)
Fixpoint legal_sequence (position : Board) (ms : list Move) : Prop :=
  match ms with
  | [] => True
  | m :: ms' => In m (legal_moves position) /\ legal_sequence (make_move_new position m) ms'
  end.
End TraceAux.

(* ===================================================================== *)
(** * Properties *)
(* ===================================================================== *)

(* --------------------------------------------------------------------- *)
(** ** Score algebra *)
(* --------------------------------------------------------------------- *)

(** C2 (as amended): for [MATE - 255 < s <= MATE], [increment_mate_plies s]
    is [s - 1] and [decrement_mate_plies s] is [s + 1]; there is no
    saturation at [MATE], which [decrement_mate_plies] turns into
    [BEST_SCORE]. *)
Theorem mate_window_plies (s : BoardScore) :
  inner MATE - 255 < inner s <= inner MATE ->
  increment_mate_plies s = BS (inner s - 1) /\
  decrement_mate_plies s = BS (inner s + 1) /\
  inner (decrement_mate_plies s) <= inner BEST_SCORE.
Proof.
  intros Hs. destruct s as [z]. simpl in *.
  unfold increment_mate_plies, decrement_mate_plies, bs_lt, bs_le, MATE_RANGE_BOTTOM.
  cbn [inner MATE].
  replace (32767 - 1 - 255) with 32511 by reflexivity.
  replace (32767 - 1) with 32766 by reflexivity.
  assert (E1 : (32511 <? z) = true) by (apply Z.ltb_lt; lia).
  assert (E2 : (z <=? 32766) = true) by (apply Z.leb_le; lia).
  assert (E3 : (32511 <=? z) = true) by (apply Z.leb_le; lia).
  rewrite E1, E2, E3. simpl. repeat split. lia.
Qed.

Lemma mate_window_plies_witness :
  (inner MATE - 255 < inner MATE <= inner MATE) /\
  increment_mate_plies MATE = BS (inner MATE - 1) /\
  decrement_mate_plies MATE = BS (inner MATE + 1) /\
  inner (decrement_mate_plies MATE) <= inner BEST_SCORE.
Proof.
  split; [simpl; lia |]. apply (mate_window_plies MATE). simpl; lia.
Defined.

(** C2 counterexample: [decrement_mate_plies MATE] is [BEST_SCORE], not [MATE]. *)
Lemma decrement_mate_is_best :
  decrement_mate_plies MATE = BEST_SCORE /\ decrement_mate_plies MATE <> MATE.
Proof. split; [reflexivity | vm_compute; congruence]. Qed.

(** C5 (as amended): [LowerBound(10) >= Exact(0)] holds, and
    [UpperBound(10)] compared with [Exact(20)] is [Less] (comparable), so
    [UpperBound(10) >= Exact(20)] is false. *)
Theorem bounded_score_examples :
  bounded_ge (LowerBound (BS 10)) (Exact (BS 0)) = true /\
  partial_cmp (UpperBound (BS 10)) (Exact (BS 20)) = Some Lt /\
  bounded_ge (UpperBound (BS 10)) (Exact (BS 20)) = false.
Proof. repeat split. Qed.

(** C5 counterexample: [partial_cmp(UpperBound(10), Exact(20))] is not [None]. *)
Lemma upper10_exact20_comparable :
  partial_cmp (UpperBound (BS 10)) (Exact (BS 20)) <> None.
Proof. vm_compute. congruence. Qed.

(* --------------------------------------------------------------------- *)
(** ** Evaluation *)
(* --------------------------------------------------------------------- *)

(** C10: the public [evaluation] returns [EVEN] for every board. *)
Theorem evaluation_always_even (Board : Type) (board : Board) :
  evaluation Board board = EVEN /\ evaluation Board board = evaluate_always_zero Board board.
Proof. split; reflexivity. Qed.

(** C1 (code defect): at [black_queen_up], Black is to move and a queen
    ahead, yet the leaf evaluator gives -900: it returns White's material
    minus Black's whatever the side to move. *)
Theorem static_eval_black_to_move_negative :
  fb_side_to_move black_queen_up = Black /\
  white_minus_black_material black_queen_up = -900 /\
  evaluate_piece_values FenBoard fb_color fb_pieces black_queen_up = BS (-900).
Proof. vm_compute. repeat split. Qed.

(* --------------------------------------------------------------------- *)
(** ** Move ordering *)
(* --------------------------------------------------------------------- *)

Section MoveOrderProofs.
Variable Move : Type.
Context `{EqDecision Move}.
Variable Board : Type.
Variable legal_moves : Board -> list Move.

Lemma mg_collect_rest (best : option Move) (inner : list Move) (fuel : nat) :
  (length inner < fuel)%nat ->
  mg_collect fuel {| mg_inner := inner; mg_best_move := best; mg_generator_state := Rest |}
  = Some (rest_items best inner).
Proof.
  revert fuel. induction inner as [| m inner IH]; intros fuel Hf.
  - destruct fuel as [| fuel]; [lia |]. destruct best; reflexivity.
  - destruct best as [b |].
    + destruct (decide (m = b)) as [-> | Hne].
      * assert (Hskip : forall f,
          mg_collect f {| mg_inner := b :: inner; mg_best_move := Some b;
                          mg_generator_state := Rest |}
          = mg_collect f {| mg_inner := inner; mg_best_move := Some b;
                            mg_generator_state := Rest |}).
        { intros [| f]; [reflexivity |]. cbn [mg_collect]. unfold mg_next. cbn.
          rewrite decide_True by reflexivity. reflexivity. }
        rewrite Hskip, IH by (simpl in Hf; lia). simpl.
        rewrite bool_decide_false by congruence. reflexivity.
      * destruct fuel as [| fuel]; [simpl in Hf; lia |].
        cbn [mg_collect]. unfold mg_next. cbn. rewrite decide_False by exact Hne. cbn.
        rewrite IH by (simpl in Hf; lia). cbn.
        rewrite bool_decide_true by exact Hne. reflexivity.
    + destruct fuel as [| fuel]; [simpl in Hf; lia |].
      cbn [mg_collect]. unfold mg_next. cbn. rewrite IH by (simpl in Hf; lia). reflexivity.
Qed.

Lemma mg_collect_new (position : Board) (hint : option Move) :
  let g := MoveGenerator_new legal_moves position hint in
  mg_collect (S (mg_measure g)) g =
  Some (match hint with
        | Some m => m :: rest_items (Some m) (legal_moves position)
        | None => legal_moves position
        end).
Proof.
  destruct hint as [m |]; unfold mg_measure, MoveGenerator_new; cbn [mg_inner mg_generator_state].
  - cbn [mg_collect]. unfold mg_next. cbn [mg_generator_state mg_best_move mg_inner].
    rewrite mg_collect_rest by lia. reflexivity.
  - rewrite mg_collect_rest by lia. reflexivity.
Qed.

(** C9: [MoveGenerator] yields the hint first and never again, then each
    legal move other than the hint once (the legal generator yields each
    legal move once); without a hint it yields exactly the legal moves; in
    both cases [next] returns [None] within [mg_measure + 1] calls. *)
Theorem move_generator_items (position : Board) (hint : option Move) :
  NoDup (legal_moves position) ->
  let g := MoveGenerator_new legal_moves position hint in
  mg_collect (S (mg_measure g)) g = Some (mg_items g) /\
  match hint with
  | Some m =>
      exists rest, mg_items g = m :: rest /\ ~ In m rest /\ NoDup rest /\
        (forall x, In x rest <-> In x (legal_moves position) /\ x <> m)
  | None => mg_items g = legal_moves position
  end.
Proof.
  intros Hnd g. pose proof (mg_collect_new position hint) as Hc. fold g in Hc.
  assert (Hitems : mg_items g = match hint with
                                | Some m => m :: rest_items (Some m) (legal_moves position)
                                | None => legal_moves position
                                end).
  { unfold mg_items. rewrite Hc. reflexivity. }
  split; [rewrite Hc, Hitems; reflexivity |].
  rewrite Hitems. destruct hint as [m |]; [| reflexivity].
  exists (rest_items (Some m) (legal_moves position)). simpl.
  split; [reflexivity |]. split; [| split].
  - intros Hin. apply filter_In in Hin as [_ Hb].
    apply bool_decide_eq_true in Hb. congruence.
  - apply NoDup_ListNoDup, List.NoDup_filter, NoDup_ListNoDup. exact Hnd.
  - intros x. rewrite filter_In. split.
    + intros [Hx Hb]. apply bool_decide_eq_true in Hb. auto.
    + intros [Hx Hne]. split; [exact Hx | apply bool_decide_eq_true; exact Hne].
Qed.
End MoveOrderProofs.

Lemma move_generator_items_witness :
  NoDup [1%nat; 2%nat; 3%nat] /\
  let g := MoveGenerator_new (fun _ : unit => [1%nat; 2%nat; 3%nat]) tt (Some 2%nat) in
  mg_collect (S (mg_measure g)) g = Some (mg_items g) /\
  exists rest, mg_items g = 2%nat :: rest /\ ~ In 2%nat rest /\ NoDup rest /\
    (forall x, In x rest <-> In x [1%nat; 2%nat; 3%nat] /\ x <> 2%nat).
Proof.
  assert (Hnd : NoDup [1%nat; 2%nat; 3%nat])
    by (apply NoDup_ListNoDup; repeat constructor; simpl; lia).
  split; [exact Hnd |].
  exact (move_generator_items nat unit (fun _ => [1%nat; 2%nat; 3%nat]) tt (Some 2%nat) Hnd).
Defined.

(* --------------------------------------------------------------------- *)
(** ** PV tracing *)
(* --------------------------------------------------------------------- *)

Section PvProofs.
Variable Move : Type.
Variable Board : Type.
Variable get_hash : Board -> Z.
Variable make_move_new : Board -> Move -> Board.

Lemma pv_loop_length (hm : HashMap Move) (fuel nbr : nat) (position : Board) :
  (nbr <= DEPTH_MAX)%nat ->
  (length (pv_loop Move Board get_hash make_move_new hm fuel nbr position) <= 256 - nbr)%nat.
Proof.
  revert nbr position. induction fuel as [| fuel IH]; intros nbr position Hn; cbn [pv_loop].
  - cbn [length]. lia.
  - destruct (hm_get hm (get_hash position)) as [e |]; [| cbn [length]; lia].
    destruct (he_best_move e) as [bm |]; [| cbn [length]; lia].
    destruct (DEPTH_MAX <? S nbr)%nat eqn:E.
    + cbn [length]. unfold DEPTH_MAX in *. lia.
    + apply Nat.ltb_ge in E. cbn [length]. specialize (IH (S nbr) (make_move_new position bm) E).
      unfold DEPTH_MAX in *. lia.
Qed.

Lemma trace_pv_length_le_256 (hm : HashMap Move) (position : Board) :
  (length (trace_pv Move Board get_hash make_move_new hm position) <= 256)%nat.
Proof.
  unfold trace_pv. pose proof (pv_loop_length hm 256 0 position) as H.
  unfold DEPTH_MAX in H. lia.
Qed.
End PvProofs.

(** C6 (code defect): [trace_pv] checks [nbr > 255] only after writing the
    move, so on a cyclic table it writes 256 moves; 256 is its bound. *)
Theorem trace_pv_cycle_emits_256 :
  length (trace_pv unit Z (fun b => b) cycle_make_move cycle_table 1) = 256%nat /\
  forall (Move Board : Type) (get_hash : Board -> Z) (make_move_new : Board -> Move -> Board)
         (hm : HashMap Move) (position : Board),
    (length (trace_pv Move Board get_hash make_move_new hm position) <= 256)%nat.
Proof.
  split; [vm_compute; reflexivity |].
  intros. apply trace_pv_length_le_256.
Qed.

(* --------------------------------------------------------------------- *)
(** ** Slot search of the transposition table *)
(* --------------------------------------------------------------------- *)

Section SlotSearchProofs.

Lemma u64_bits_high (x n : Z) : in_u64 x -> 64 <= n -> Z.testbit x n = false.
Proof.
  intros [H0 H1] Hn. destruct (Z.eq_dec x 0) as [-> | Hx]; [apply Z.bits_0 |].
  apply Z.bits_above_log2; [lia |].
  assert (Z.log2 x < 64); [| lia].
  apply Z.log2_lt_pow2; [lia | exact H1].
Qed.

Lemma in_u64_of_bits (z : Z) :
  0 <= z -> (forall n, 64 <= n -> Z.testbit z n = false) -> in_u64 z.
Proof.
  intros H0 Hb. assert (E : z = z mod U64_MOD).
  { apply Z.bits_inj'. intros n Hn. unfold U64_MOD.
    destruct (Z.lt_ge_cases n 64).
    - rewrite Z.mod_pow2_bits_low by lia. reflexivity.
    - rewrite Z.mod_pow2_bits_high by lia. apply Hb. lia. }
  rewrite E. unfold in_u64. apply Z.mod_pos_bound. reflexivity.
Qed.

Lemma rotl11_bits_low (x i : Z) :
  in_u64 x -> 0 <= i < 64 -> Z.testbit (rotl11 x) i = Z.testbit x ((i - 11) mod 64).
Proof.
  intros Hx Hi. unfold rotl11, wrap_u64, U64_MOD.
  rewrite Z.lor_spec, Z.mod_pow2_bits_low by lia.
  rewrite Z.shiftl_spec, Z.shiftr_spec by lia.
  destruct (Z.lt_ge_cases i 11).
  - rewrite (Z.testbit_neg_r x (i - 11)) by lia. simpl.
    f_equal. rewrite <- (Z.mod_small (i + 53) 64) by lia.
    replace (i + 53) with ((i - 11) + 1 * 64) by lia.
    rewrite Z_mod_plus_full. reflexivity.
  - rewrite (u64_bits_high x (i + 53)) by (auto; lia). rewrite orb_false_r.
    f_equal. rewrite Z.mod_small by lia. reflexivity.
Qed.

Lemma rotl11_in_u64 (x : Z) : in_u64 x -> in_u64 (rotl11 x).
Proof.
  intros Hx. apply in_u64_of_bits.
  - unfold rotl11, wrap_u64. apply Z.lor_nonneg. split.
    + apply Z.mod_pos_bound. reflexivity.
    + apply Z.shiftr_nonneg. destruct Hx; lia.
  - intros n Hn. unfold rotl11, wrap_u64, U64_MOD.
    rewrite Z.lor_spec, Z.mod_pow2_bits_high by lia.
    rewrite Z.shiftr_spec by lia. apply u64_bits_high; [exact Hx | lia].
Qed.

Lemma rot_iter_in_u64 (k : nat) (x : Z) : in_u64 x -> in_u64 (Nat.iter k rotl11 x).
Proof.
  intros Hx. induction k as [| k IH]; simpl; [exact Hx | apply rotl11_in_u64, IH].
Qed.

Lemma rot_iter_bits (k : nat) (x i : Z) :
  in_u64 x -> 0 <= i < 64 ->
  Z.testbit (Nat.iter k rotl11 x) i = Z.testbit x ((i - 11 * Z.of_nat k) mod 64).
Proof.
  intros Hx. revert i. induction k as [| k IH]; intros i Hi.
  - simpl. rewrite Z.mod_small by lia. f_equal. lia.
  - simpl Nat.iter. rewrite rotl11_bits_low by (auto using rot_iter_in_u64).
    rewrite IH by (apply Z.mod_pos_bound; lia).
    f_equal. rewrite Zminus_mod_idemp_l. f_equal. lia.
Qed.

(** Sixty-four rotations by 11 bits are the identity on a [u64]. *)
Lemma rot_iter_64 (x : Z) : in_u64 x -> Nat.iter 64 rotl11 x = x.
Proof.
  intros Hx. apply Z.bits_inj'. intros n Hn.
  destruct (Z.lt_ge_cases n 64).
  - rewrite rot_iter_bits by (auto; lia). f_equal.
    replace (n - 11 * Z.of_nat 64) with (n + (-11) * 64) by (simpl; lia).
    rewrite Z_mod_plus_full. apply Z.mod_small. lia.
  - rewrite !u64_bits_high; auto using rot_iter_in_u64.
Qed.

Lemma existsb_eqb_In (z : Z) (l : list Z) : existsb (Z.eqb z) l = true <-> In z l.
Proof.
  rewrite existsb_exists. split.
  - intros [y [Hy Hz]]. apply Z.eqb_eq in Hz. subst. exact Hy.
  - intros Hz. exists z. split; [exact Hz | apply Z.eqb_refl].
Qed.

Lemma slot_steps_spec (cap : Z) (k : nat) (x : Z) (res : list Z) :
  0 < cap -> in_u64 x -> slots_ok cap res ->
  match slot_steps cap k x res with
  | SlotsDone l => slots_final cap l
  | SlotsCont x' res' =>
      x' = Nat.iter k rotl11 x /\ slots_ok cap res' /\
      (forall i, In i res -> In i res') /\ ((0 < k)%nat -> In (x mod cap) res')
  end.
Proof.
  intros Hcap. revert x res. induction k as [| k IH]; intros x res Hx Hok.
  - simpl. repeat split; auto; try apply Hok. lia.
  - cbn [slot_steps]. set (next_slot := x mod cap).
    assert (Hrange : 0 <= next_slot < cap) by (apply Z.mod_pos_bound; exact Hcap).
    destruct (existsb (Z.eqb next_slot) res) eqn:Eex; cbn [negb].
    + (* already found *)
      apply existsb_eqb_In in Eex.
      specialize (IH (rotl11 x) res (rotl11_in_u64 x Hx) Hok).
      destruct (slot_steps cap k (rotl11 x) res) as [l | x' res'].
      * exact IH.
      * destruct IH as (Hx' & Hok' & Hsub & _). split; [| split; [| split]].
        -- rewrite Hx', Nat.iter_succ_r. reflexivity.
        -- exact Hok'.
        -- exact Hsub.
        -- intros _. apply Hsub. exact Eex.
    + assert (Hnin : ~ In next_slot res).
      { intros Hin. apply existsb_eqb_In in Hin. congruence. }
      destruct Hok as (Hnd & Hfa & Hlen).
      assert (Hnd' : NoDup (res ++ [next_slot])).
      { apply NoDup_app. split; [exact Hnd | split].
        - intros y Hy Hy'. apply list_elem_of_In in Hy. apply list_elem_of_In in Hy'.
          destruct Hy' as [<- | []]. contradiction.
        - apply NoDup_singleton. }
      assert (Hfa' : Forall (fun i => 0 <= i < cap) (res ++ [next_slot])).
      { apply Forall_app. split; [exact Hfa | constructor; [exact Hrange | constructor]]. }
      rewrite length_app in *. cbn [length] in *.
      destruct (NUM_SLOTS_PER_HASH <=? length res + 1)%nat eqn:Efull.
      * apply Nat.leb_le in Efull. unfold NUM_SLOTS_PER_HASH in Efull.
        split; [exact Hnd' | split; [exact Hfa' |]]. rewrite length_app. simpl. lia.
      * apply Nat.leb_gt in Efull. unfold NUM_SLOTS_PER_HASH in Efull.
        assert (Hok' : slots_ok cap (res ++ [next_slot])).
        { split; [exact Hnd' | split; [exact Hfa' |]]. rewrite length_app. simpl. lia. }
        specialize (IH (rotl11 x) _ (rotl11_in_u64 x Hx) Hok').
        destruct (slot_steps cap k (rotl11 x) (res ++ [next_slot])) as [l | x' res'].
        -- exact IH.
        -- destruct IH as (Hx' & Hok'' & Hsub & _). split; [| split; [| split]].
           ++ rewrite Hx', Nat.iter_succ_r. reflexivity.
           ++ exact Hok''.
           ++ intros i Hi. apply Hsub, in_or_app. left. exact Hi.
           ++ intros _. apply Hsub, in_or_app. right. left. reflexivity.
Qed.

Lemma slot_round_spec (cap : Z) (x : Z) (res : list Z) :
  0 < cap -> in_u64 x -> slots_ok cap res ->
  match slot_round cap x res with
  | SlotsDone l => slots_final cap l
  | SlotsCont x' res' =>
      x' = wrap_u64 (x + SLOT_HASH_STEP) /\ slots_ok cap res' /\
      (forall i, In i res -> In i res') /\ In (x mod cap) res'
  end.
Proof.
  intros Hcap Hx Hok. unfold slot_round.
  pose proof (slot_steps_spec cap 64 x res Hcap Hx Hok) as H.
  destruct (slot_steps cap 64 x res) as [l | x' res']; [exact H |].
  destruct H as (Hx' & Hok' & Hsub & Hin). rewrite rot_iter_64 in Hx' by exact Hx.
  subst x'. split; [reflexivity | split; [exact Hok' | split; [exact Hsub | apply Hin; lia]]].
Qed.

Lemma slot_continue_ext (f g : Z -> list Z -> SlotLoop) (s : SlotLoop) :
  (forall x res, f x res = g x res) -> slot_continue f s = slot_continue g s.
Proof. intros H. destruct s; simpl; auto. Qed.

Lemma slot_rounds_nat_add (cap : Z) (a b : nat) (x : Z) (res : list Z) :
  slot_rounds_nat cap (a + b) x res =
  slot_continue (slot_rounds_nat cap b) (slot_rounds_nat cap a x res).
Proof.
  revert x res. induction a as [| a IH]; intros x res; [reflexivity |].
  simpl. destruct (slot_round cap x res) as [l | x' r']; simpl; [reflexivity | apply IH].
Qed.

Lemma slot_rounds_pos_nat (cap : Z) (p : positive) (x : Z) (res : list Z) :
  slot_rounds_pos cap p x res = slot_rounds_nat cap (Pos.to_nat p) x res.
Proof.
  revert x res. induction p as [p IH | p IH |]; intros x res.
  - rewrite Pos2Nat.inj_xI. cbn [slot_rounds_pos slot_rounds_nat].
    apply slot_continue_ext. intros x' r'.
    replace (2 * Pos.to_nat p)%nat with (Pos.to_nat p + Pos.to_nat p)%nat by lia.
    rewrite slot_rounds_nat_add, IH. apply slot_continue_ext. intros. apply IH.
  - rewrite Pos2Nat.inj_xO. cbn [slot_rounds_pos].
    replace (2 * Pos.to_nat p)%nat with (Pos.to_nat p + Pos.to_nat p)%nat by lia.
    rewrite slot_rounds_nat_add, IH. apply slot_continue_ext. intros. apply IH.
  - simpl. destruct (slot_round cap x res); reflexivity.
Qed.

Lemma slot_rounds_nat_spec (cap : Z) (n : nat) (x : Z) (res : list Z) :
  0 < cap -> in_u64 x -> slots_ok cap res ->
  match slot_rounds_nat cap n x res with
  | SlotsDone l => slots_final cap l
  | SlotsCont x' res' =>
      x' = wrap_u64 (x + Z.of_nat n * SLOT_HASH_STEP) /\ slots_ok cap res' /\
      (forall i, In i res -> In i res') /\
      (forall j, (j < n)%nat -> In (wrap_u64 (x + Z.of_nat j * SLOT_HASH_STEP) mod cap) res')
  end.
Proof.
  intros Hcap. revert x res. induction n as [| n IH]; intros x res Hx Hok.
  - simpl. split; [| split; [exact Hok | split; [auto | intros j Hj; lia]]].
    unfold wrap_u64. rewrite Z.add_0_r, Z.mod_small by exact Hx. reflexivity.
  - cbn [slot_rounds_nat].
    pose proof (slot_round_spec cap x res Hcap Hx Hok) as H1.
    destruct (slot_round cap x res) as [l | x1 r1]; [exact H1 |]. cbn [slot_continue].
    destruct H1 as (Hx1 & Hok1 & Hsub1 & Hin1).
    assert (Hx1r : in_u64 x1) by (rewrite Hx1; apply Z.mod_pos_bound; reflexivity).
    specialize (IH x1 r1 Hx1r Hok1).
    destruct (slot_rounds_nat cap n x1 r1) as [l | x' res']; [exact IH |].
    destruct IH as (Hx' & Hok' & Hsub' & Hin').
    split; [| split; [exact Hok' | split]].
    + rewrite Hx', Hx1. unfold wrap_u64. rewrite Zplus_mod_idemp_l. f_equal. lia.
    + intros i Hi. apply Hsub', Hsub1, Hi.
    + intros [| j] Hj.
      * apply Hsub'. unfold wrap_u64. rewrite Z.add_0_r, (Z.mod_small x) by exact Hx.
        exact Hin1.
      * specialize (Hin' j ltac:(lia)). rewrite Hx1 in Hin'. unfold wrap_u64 in *.
        rewrite Zplus_mod_idemp_l in Hin'.
        replace (x + Z.of_nat (S j) * SLOT_HASH_STEP)
          with (x + SLOT_HASH_STEP + Z.of_nat j * SLOT_HASH_STEP) by lia.
        exact Hin'.
Qed.

Lemma pass_reaches (h v : Z) :
  0 <= v < U64_MOD ->
  wrap_u64 (h + ((v - h) * SLOT_HASH_STEP_INV) mod U64_MOD * SLOT_HASH_STEP) = v.
Proof.
  intros Hv. unfold wrap_u64.
  set (t := (v - h) * SLOT_HASH_STEP_INV).
  rewrite (Z.mod_eq t U64_MOD) by (unfold U64_MOD; lia).
  replace (h + (t - U64_MOD * (t / U64_MOD)) * SLOT_HASH_STEP)
    with (v + ((v - h) * 34227769489071 - t / U64_MOD * SLOT_HASH_STEP) * U64_MOD)
    by (subst t; unfold SLOT_HASH_STEP_INV, SLOT_HASH_STEP, U64_MOD; ring).
  rewrite Z_mod_plus_full. apply Z.mod_small. exact Hv.
Qed.

(** Within 2^64 passes the outer loop returns. *)
Lemma slot_rounds_done (cap h : Z) :
  4 <= cap -> in_u64 h ->
  exists l, slot_rounds_pos cap (2 ^ 64)%positive h [] = SlotsDone l /\ slots_final cap l.
Proof.
  intros Hcap Hh. rewrite slot_rounds_pos_nat.
  assert (Hok0 : slots_ok cap []).
  { split; [constructor | split; [constructor | simpl; lia]]. }
  pose proof (slot_rounds_nat_spec cap (Pos.to_nat (2 ^ 64)) h [] ltac:(lia) Hh Hok0) as H.
  destruct (slot_rounds_nat cap (Pos.to_nat (2 ^ 64)) h []) as [l | x' res'].
  - exists l. split; [reflexivity | exact H].
  - exfalso. destruct H as (_ & (_ & _ & Hlen) & _ & Hin).
    assert (Hv : forall v, 0 <= v < 4 -> In v res').
    { intros v Hv.
      set (j := ((v - h) * SLOT_HASH_STEP_INV) mod U64_MOD).
      assert (Hj : 0 <= j < U64_MOD) by (apply Z.mod_pos_bound; reflexivity).
      assert (Hjn : (Z.to_nat j < Pos.to_nat (2 ^ 64))%nat).
      { apply Nat2Z.inj_lt. rewrite positive_nat_Z, Z2Nat.id by lia.
        unfold U64_MOD in Hj. replace (Z.pos (2 ^ 64)) with (2 ^ 64) by reflexivity. lia. }
      specialize (Hin (Z.to_nat j) Hjn). rewrite Z2Nat.id in Hin by lia.
      subst j. rewrite pass_reaches in Hin by (unfold U64_MOD; lia).
      rewrite Z.mod_small in Hin by lia. exact Hin. }
    assert (Hincl : incl [0; 1; 2; 3] res').
    { intros v Hv'. apply Hv. simpl in Hv'. lia. }
    apply NoDup_incl_length in Hincl.
    + simpl in Hincl. lia.
    + repeat constructor; simpl; lia.
Qed.
End SlotSearchProofs.

(** C8: for a capacity of at least 4 and every [u64] hash, the loop of
    [get_slot_idx_for_hash] returns (within 2^64 passes of its outer loop)
    and its result is four pairwise-distinct indices, each below the
    capacity. *)
Theorem get_slot_idx_for_hash_spec (cap hash : Z) :
  4 <= cap -> 0 <= hash < 2 ^ 64 ->
  (exists l, slot_rounds_pos cap (2 ^ 64)%positive hash [] = SlotsDone l) /\
  length (get_slot_idx_for_hash cap hash) = 4%nat /\
  NoDup (get_slot_idx_for_hash cap hash) /\
  Forall (fun i => 0 <= i < cap) (get_slot_idx_for_hash cap hash).
Proof.
  intros Hcap Hh.
  destruct (slot_rounds_done cap hash Hcap Hh) as (l & Hl & Hnd & Hfa & Hlen).
  unfold get_slot_idx_for_hash. rewrite Hl.
  split; [exists l; reflexivity | auto].
Qed.

Lemma get_slot_idx_for_hash_spec_witness :
  (4 <= 8 /\ 0 <= 12345 < 2 ^ 64) /\
  get_slot_idx_for_hash 8 12345 = [1; 0; 4; 7] /\
  ((exists l, slot_rounds_pos 8 (2 ^ 64)%positive 12345 [] = SlotsDone l) /\
   length (get_slot_idx_for_hash 8 12345) = 4%nat /\
   NoDup (get_slot_idx_for_hash 8 12345) /\
   Forall (fun i => 0 <= i < 8) (get_slot_idx_for_hash 8 12345)).
Proof.
  split; [split; lia |]. split; [vm_compute; reflexivity |].
  apply get_slot_idx_for_hash_spec; lia.
Defined.

(* --------------------------------------------------------------------- *)
(** ** Placement in the transposition table *)
(* --------------------------------------------------------------------- *)

Section InsertProofs.
Variable Move : Type.

Lemma min_depth_from_spec (hm : HashMap Move) (b : Z) (l : list Z) :
  In (min_depth_from hm b l) (b :: l) /\
  forall c, In c (b :: l) ->
    (he_depth (get_slot hm (min_depth_from hm b l)) <= he_depth (get_slot hm c))%nat.
Proof.
  revert b. induction l as [| a l IH]; intros b; simpl.
  - split; [left; reflexivity | intros c [<- | []]; lia].
  - destruct (he_depth (get_slot hm a) <? he_depth (get_slot hm b))%nat eqn:E.
    + apply Nat.ltb_lt in E. destruct (IH a) as [Hin Hmin]. split.
      * destruct Hin as [<- | Hin]; [right; left; reflexivity | right; right; exact Hin].
      * intros c [<- | [<- | Hc]].
        -- specialize (Hmin a (or_introl eq_refl)). lia.
        -- apply Hmin. left. reflexivity.
        -- apply Hmin. right. exact Hc.
    + apply Nat.ltb_ge in E. destruct (IH b) as [Hin Hmin]. split.
      * destruct Hin as [<- | Hin]; [left; reflexivity | right; right; exact Hin].
      * intros c [<- | [<- | Hc]].
        -- apply Hmin. left. reflexivity.
        -- specialize (Hmin b (or_introl eq_refl)). lia.
        -- apply Hmin. right. exact Hc.
Qed.

Lemma lowest_depth_spec (hm : HashMap Move) (l : list Z) :
  l <> [] ->
  In (lowest_depth hm l) l /\
  forall c, In c l -> (he_depth (get_slot hm (lowest_depth hm l)) <= he_depth (get_slot hm c))%nat.
Proof.
  intros Hne. destruct l as [| b l]; [congruence |]. apply min_depth_from_spec.
Qed.

End InsertProofs.

Section InsertTheorem.
Variable Move : Type.

Lemma select_slot_shape (hm : HashMap Move) (hash : Z) (cands : list Z) :
  (exists c, snd (select_slot hm hash cands) = set_count hm c) \/
  snd (select_slot hm hash cands) = hm.
Proof.
  unfold select_slot. destruct (get_existing_slot hm hash cands); [right; reflexivity |].
  unfold get_empty_slot. destruct (find _ cands); [left; eexists; reflexivity |].
  unfold get_purgeable_slot. destruct (find _ cands); [left; eexists; reflexivity |].
  destruct (List.filter _ cands); [right; reflexivity | left; eexists; reflexivity].
Qed.

Lemma hm_insert_into (hm : HashMap Move) (hash : Z) (entry : HashEntry Move) :
  hm_insert hm hash entry =
  insert_into hm hash entry (get_slot_idx_for_hash (hm_capacity hm) hash).
Proof. unfold hm_insert, insert_into, get_mut_or_new_slot. cbv zeta. reflexivity. Qed.

Lemma insert_into_count (hm : HashMap Move) (hash : Z) (entry : HashEntry Move)
    (cands : list Z) :
  hm_count (insert_into hm hash entry cands) = hm_count (snd (select_slot hm hash cands)).
Proof. unfold insert_into. destruct (select_slot hm hash cands). reflexivity. Qed.

Lemma insert_into_written (hm : HashMap Move) (hash : Z) (entry : HashEntry Move)
    (cands : list Z) :
  0 <= fst (select_slot hm hash cands) ->
  (Z.to_nat (fst (select_slot hm hash cands)) < length (hm_slots hm))%nat ->
  get_slot (insert_into hm hash entry cands) (fst (select_slot hm hash cands))
  = stamp entry hash (hm_generation hm).
Proof.
  intros H0 Hlt. pose proof (select_slot_shape hm hash cands) as Hsh.
  unfold insert_into. destruct (select_slot hm hash cands) as [s hm'] eqn:E.
  cbn [fst snd] in *.
  assert (Hsl : hm_slots hm' = hm_slots hm) by (destruct Hsh as [[c ->] | ->]; reflexivity).
  unfold get_slot, write_slot. cbn [hm_slots]. rewrite Hsl.
  rewrite list_lookup_insert_eq by exact Hlt. reflexivity.
Qed.

Lemma select_slot_rules (hm : HashMap Move) (hash : Z) (entry : HashEntry Move)
    (cands : list Z) :
  cands <> [] ->
  (forall i, In i cands -> 0 <= i /\ (Z.to_nat i < length (hm_slots hm))%nat) ->
  placement_rules hm hash entry cands (fst (select_slot hm hash cands))
    (insert_into hm hash entry cands).
Proof.
  intros Hne Hrange. unfold placement_rules. cbv beta zeta.
  assert (Hin : In (fst (select_slot hm hash cands)) cands).
  { unfold select_slot, get_existing_slot, get_empty_slot, get_purgeable_slot.
    destruct (find (fun i => he_hash (get_slot hm i) =? hash) cands) eqn:E1; [apply find_some in E1; exact (proj1 E1) |].
    destruct (find (fun i => negb (is_used (he_entry_type (get_slot hm i)))) cands) eqn:E2; [apply find_some in E2; exact (proj1 E2) |].
    cbn iota. destruct (find (fun i => 2 <=? wrapping_sub_u8 (hm_generation hm) (he_generation (get_slot hm i))) cands) eqn:E3; [apply find_some in E3; exact (proj1 E3) |].
    destruct (List.filter _ cands) as [| z l] eqn:E4.
    - apply lowest_depth_spec. exact Hne.
    - destruct (lowest_depth_spec _ hm (z :: l) ltac:(discriminate)) as [H _].
      cbn [fst]. set (ld := lowest_depth hm (z :: l)) in *. rewrite <- E4 in H. apply filter_In in H. exact (proj1 H). }
  destruct (Hrange _ Hin) as [H0 Hlt].
  pose proof (insert_into_written hm hash entry cands H0 Hlt) as Hw.
  split; [exact Hin |]. split; [exact Hw |]. split; [rewrite Hw; reflexivity |].
  rewrite insert_into_count. clear Hin H0 Hlt Hw.
  unfold select_slot, get_existing_slot, get_empty_slot, get_purgeable_slot.
  destruct (find (fun i => he_hash (get_slot hm i) =? hash) cands) as [s |] eqn:E1.
  { apply find_some in E1 as [Hs Eh]. apply Z.eqb_eq in Eh. cbn [fst snd].
    split; [intros _; split; [exact Eh | reflexivity] |].
    split; [intros Hn; exfalso; exact (Hn s Hs Eh) |].
    split; [intros Hn; exfalso; exact (Hn s Hs Eh) |].
    split; intros Hn; exfalso; exact (Hn s Hs Eh). }
  pose proof (find_none _ _ E1) as N1. cbn beta in N1.
  assert (Nh : forall c, In c cands -> he_hash (get_slot hm c) <> hash).
  { intros c Hc Eq. specialize (N1 c Hc). rewrite Eq, Z.eqb_refl in N1. discriminate. }
  split; [intros [c [Hc Eq]]; exfalso; exact (Nh c Hc Eq) |].
  destruct (find (fun i => negb (is_used (he_entry_type (get_slot hm i)))) cands) as [s |] eqn:E2.
  { apply find_some in E2 as [Hs Ek]. cbn [fst snd].
    assert (Ku : entry_kind (he_entry_type (get_slot hm s)) = Unused)
      by (unfold is_used in Ek; destruct (entry_kind _); [reflexivity | discriminate | discriminate]).
    split; [intros _ _; split; [exact Ku | reflexivity] |].
    split; [intros _ Hk; exfalso; exact (Hk s Hs Ku) |].
    split; intros _ Hk; exfalso; exact (Hk s Hs Ku). }
  pose proof (find_none _ _ E2) as N2. cbn beta in N2.
  assert (Nk : forall c, In c cands -> entry_kind (he_entry_type (get_slot hm c)) <> Unused).
  { intros c Hc Eq. specialize (N2 c Hc). unfold is_used in N2. rewrite Eq in N2. discriminate. }
  split; [intros _ [c [Hc Eq]]; exfalso; exact (Nk c Hc Eq) |].
  cbn iota. destruct (find (fun i => 2 <=? wrapping_sub_u8 (hm_generation hm) (he_generation (get_slot hm i))) cands) as [s |] eqn:E3.
  { apply find_some in E3 as [Hs Ea]. apply Z.leb_le in Ea. cbn [fst snd].
    split; [intros _ _ _; split; [exact Ea | reflexivity] |].
    split; intros _ _ Ha; [specialize (Ha s Hs) | destruct (Ha s Hs) as [Ha' _]];
      exfalso; unfold slot_age in *; lia. }
  pose proof (find_none _ _ E3) as N3. cbn beta in N3.
  assert (Na : forall c, In c cands -> slot_age hm c < 2).
  { intros c Hc. specialize (N3 c Hc). apply Z.leb_gt in N3. exact N3. }
  split; [intros _ _ [c [Hc Ha]]; exfalso; specialize (Na c Hc); lia |].
  destruct (List.filter _ cands) as [| z l] eqn:E4.
  { cbn [fst snd]. split.
    - intros _ _ _ [c [Hc Ha]]. exfalso.
      assert (Hf : In c (List.filter (fun i => 1 <=? wrapping_sub_u8 (hm_generation hm)
                                (he_generation (get_slot hm i))) cands)).
      { apply filter_In. split; [exact Hc | apply Z.leb_le; unfold slot_age in Ha; lia]. }
      rewrite E4 in Hf. exact Hf.
    - intros _ _ _. split; [apply lowest_depth_spec; exact Hne | reflexivity]. }
  cbn [fst snd].
  destruct (lowest_depth_spec _ hm (z :: l) ltac:(discriminate)) as [Hi Hmin].
  set (ld := lowest_depth hm (z :: l)) in *. rewrite <- E4 in Hi, Hmin. apply filter_In in Hi as [Hi Hai]. apply Z.leb_le in Hai.
  split.
  - intros _ _ _ _. split; [specialize (Na _ Hi); unfold slot_age in *; lia |].
    split; [| reflexivity]. intros c Hc Ha. apply Hmin. apply filter_In.
    split; [exact Hc | apply Z.leb_le; unfold slot_age in Ha; lia].
  - intros _ _ Ha. exfalso. destruct (Ha _ Hi) as [Ha1 Ha2].
    unfold slot_age in *. lia.
Qed.
End InsertTheorem.

Lemma slot_idx_for_hash_range (cap hash : Z) :
  4 <= cap -> 0 <= hash < 2 ^ 64 ->
  length (get_slot_idx_for_hash cap hash) = 4%nat /\
  forall i, In i (get_slot_idx_for_hash cap hash) -> 0 <= i < cap.
Proof.
  intros Hcap Hh.
  destruct (slot_rounds_done cap hash Hcap Hh) as (l & Hl & _ & Hfa & Hlen).
  unfold get_slot_idx_for_hash. rewrite Hl.
  split; [exact Hlen | apply (proj1 (List.Forall_forall _ _)); exact Hfa].
Qed.

(** C4: [insert] writes the entry, stamped with the key and the current
    generation, into one of the candidate slots of the key, chosen by the
    first rule that applies: a slot already holding the key (count kept); an
    [Unused] slot (count + 1); a slot two or more generations behind
    (count + 1); the least deep of the slots exactly one generation behind
    (count + 1); the least deep of all candidates (count kept). *)
Theorem insert_slot_priority (Move : Type) (hm : HashMap Move) (hash : Z)
    (entry : HashEntry Move) :
  4 <= hm_capacity hm -> 0 <= hash < 2 ^ 64 ->
  length (hm_slots hm) = Z.to_nat (hm_capacity hm) ->
  length (get_slot_idx_for_hash (hm_capacity hm) hash) = 4%nat /\
  placement_rules hm hash entry (get_slot_idx_for_hash (hm_capacity hm) hash)
    (fst (get_mut_or_new_slot hm hash)) (hm_insert hm hash entry).
Proof.
  intros Hcap Hh Hlen.
  destruct (slot_idx_for_hash_range (hm_capacity hm) hash Hcap Hh) as [Hl Hr].
  rewrite hm_insert_into. unfold get_mut_or_new_slot. cbv zeta.
  generalize dependent (get_slot_idx_for_hash (hm_capacity hm) hash). intros cands Hl Hr.
  split; [exact Hl |]. apply select_slot_rules.
  - intros ->. discriminate.
  - intros i Hi. destruct (Hr i Hi) as [H0 H1]. split; [exact H0 | rewrite Hlen; apply Z2Nat.inj_lt; lia].
Qed.

Lemma insert_slot_priority_witness :
  (4 <= hm_capacity (hm_empty (Move:=unit) 8) /\ 0 <= 12345 < 2 ^ 64 /\
   length (hm_slots (hm_empty (Move:=unit) 8)) = Z.to_nat (hm_capacity (hm_empty (Move:=unit) 8))) /\
  (length (get_slot_idx_for_hash (hm_capacity (hm_empty (Move:=unit) 8)) 12345) = 4%nat /\
   placement_rules (hm_empty (Move:=unit) 8) 12345 (with_contents (Move:=unit) 12345 None (Exact (BS 7)) 3)
     (get_slot_idx_for_hash (hm_capacity (hm_empty (Move:=unit) 8)) 12345)
     (fst (get_mut_or_new_slot (hm_empty (Move:=unit) 8) 12345))
     (hm_insert (hm_empty (Move:=unit) 8) 12345 (with_contents (Move:=unit) 12345 None (Exact (BS 7)) 3))).
Proof.
  split; [split; [cbn; lia | split; [lia | reflexivity]] |].
  apply insert_slot_priority; [cbn; lia | lia | reflexivity].
Defined.

(* --------------------------------------------------------------------- *)
(** ** Search *)
(* --------------------------------------------------------------------- *)

Section SearchProofs.
Variable Move : Type.
Context `{EqDecision Move}.
Variable Board : Type.
Variable get_hash : Board -> Z.
Variable legal_moves : Board -> list Move.
Variable make_move_new : Board -> Move -> Board.
Variable in_check : Board -> bool.
Variable color_combined : Board -> Color -> Z.
Variable pieces : Board -> Piece -> Z.
Variable stop_now_at : nat -> bool.
Variable elapsed_at : nat -> Z.

Local Abbreviation search_node :=
  (alphabeta_search Move Board get_hash legal_moves make_move_new in_check
     color_combined pieces stop_now_at elapsed_at).

Lemma moves_loop_sc rec position beta ms ls st :
  (forall p a b, keeps_sc (rec p a b)) ->
  stop_conditions (snd (moves_loop Move Board make_move_new rec position beta ms ls st))
  = stop_conditions st.
Proof.
  intros Hrec. revert ls st. induction ms as [| m ms IH]; intros ls st; [reflexivity |].
  cbn [moves_loop].
  destruct (rec _ _ _ st) as [child st1] eqn:E.
  assert (Hst1 : stop_conditions st1 = stop_conditions st).
  { pose proof (Hrec (make_move_new position m) (bs_neg (decrement_mate_plies beta))
                  (bs_neg (decrement_mate_plies (ls_alpha ls))) st) as H.
    rewrite E in H. exact H. }
  destruct (bounded_gt _ _); cbn iota;
    (destruct (negb _ && _); [exact Hst1 | rewrite IH; exact Hst1]).
Qed.

Lemma finish_node_sc position depth ls st :
  stop_conditions (snd (finish_node Move Board get_hash in_check stop_now_at elapsed_at
                          position depth ls st)) = stop_conditions st.
Proof.
  unfold finish_node, should_stop_search.
  destruct (any_moves ls), (deficient_search ls); cbn iota;
    (destruct (negb _); reflexivity).
Qed.

Lemma alphabeta_sc depth position alpha beta :
  keeps_sc (search_node depth position alpha beta).
Proof.
  revert position alpha beta.
  induction depth as [| d IH]; intros position alpha beta st; cbn [alphabeta_search];
    unfold should_stop_search; cbn iota;
    destruct (bs_le BEST_SCORE alpha); [reflexivity | | reflexivity | ];
    destruct (bs_eqb beta WORST_SCORE); try reflexivity;
    destruct (probe_table _ _ _ _ _); try reflexivity.
  - destruct (negb _); [| reflexivity]. unfold leaf_evaluation.
    destruct (0 <? _)%nat; [| destruct (in_check position)]; reflexivity.
  - destruct (negb _); [| reflexivity].
    match goal with |- context [moves_loop ?M ?B ?mk ?r ?p ?b ?ms ?ls ?s] =>
      pose proof (moves_loop_sc r p b ms ls s (fun p a b => IH p a b)) as Hm;
      destruct (moves_loop M B mk r p b ms ls s) as [ls' st'] end.
    rewrite finish_node_sc. exact Hm.
Qed.

Lemma deepening_sc remaining depth position st :
  stop_conditions (fst (deepening Move Board get_hash legal_moves make_move_new in_check
                          color_combined pieces stop_now_at elapsed_at
                          remaining depth position st)) = stop_conditions st.
Proof.
  revert depth st. induction remaining as [| r IH]; intros depth st; [reflexivity |].
  cbn [deepening]. unfold should_stop_search. cbn iota.
  destruct (stop_condition_at _ _ _ _); [reflexivity |].
  destruct (sc_depth _ <? depth)%nat; [reflexivity |].
  pose proof (alphabeta_sc depth position WORST_SCORE BEST_SCORE (incr_polls st)) as Ha.
  destruct (alphabeta_search _ _ _ _ _ _ _ _ _ _ _ _ _ _ _) as [score st1]. cbn [snd] in Ha.
  match goal with |- context [deepening ?M ?B ?g ?l ?mk ?c ?cc ?pc ?sn ?el r ?dp ?p st1] =>
    pose proof (IH dp st1) as Hd;
    destruct (deepening M B g l mk c cc pc sn el r dp p st1) as [st2 lines] end.
  cbn [fst] in *. rewrite Hd, Ha. reflexivity.
Qed.

(** C7 (code defect): [search] writes nothing into the stop conditions, so
    [is_running] keeps, on entry and on return, the value it had before
    the call ([false] from [StopConditions::new]). *)
Theorem search_leaves_stop_conditions (st : Searcher Move) (position : Board) :
  stop_conditions (search_entry Move st) = stop_conditions st /\
  stop_conditions (fst (fst (search Move Board get_hash legal_moves make_move_new in_check
                               color_combined pieces stop_now_at elapsed_at st position)))
  = stop_conditions st.
Proof.
  split; [reflexivity |]. unfold search.
  pose proof (deepening_sc DEPTH_MAX 1 position (search_entry Move st)) as H.
  destruct (deepening _ _ _ _ _ _ _ _ _ _ _ _ _ _) as [st' lines]. exact H.
Qed.

(** C3 (as amended): at depth > 0, with no stop condition met, a position
    without legal moves is scored [Exact MATED] in check and [Exact EVEN]
    otherwise, and the stored entry has depth 255, provided the call gets
    past the early returns: [alpha] below [BEST_SCORE], [beta] not
    [WORST_SCORE], and no table entry for the position that the probe
    returns or that supplies a best move. The early returns, at any depth
    and before any move is looked at (the table is left as it is):
    [alpha >= BEST_SCORE] gives [UpperBound MATE], [beta = WORST_SCORE]
    gives [LowerBound MATED], and a probe hit gives the score the probe
    returns from the stored entry. *)
Theorem no_moves_scored_and_stored :
  (forall (depth : nat) (position : Board) (alpha beta : BoardScore) (st : Searcher Move),
    (0 < depth)%nat ->
    (forall k, stop_condition_at stop_now_at elapsed_at (stop_conditions st) k = false) ->
    legal_moves position = [] ->
    bs_le BEST_SCORE alpha = false ->
    bs_eqb beta WORST_SCORE = false ->
    (forall e, hm_get (hashmap st) (get_hash position) = Some e ->
       he_best_move e = None /\ probe_table false depth alpha beta (Some e) = None) ->
    let r := if in_check position then Exact MATED else Exact EVEN in
    fst (search_node depth position alpha beta st) = r /\
    hashmap (snd (search_node depth position alpha beta st)) =
      hm_insert (hashmap st) (get_hash position)
        (with_contents (get_hash position) None r DEPTH_MAX)) /\
  (forall (depth : nat) (position : Board) (alpha beta : BoardScore) (st : Searcher Move),
    bs_le BEST_SCORE alpha = true ->
    fst (search_node depth position alpha beta st) = UpperBound MATE /\
    hashmap (snd (search_node depth position alpha beta st)) = hashmap st) /\
  (forall (depth : nat) (position : Board) (alpha beta : BoardScore) (st : Searcher Move),
    bs_le BEST_SCORE alpha = false -> bs_eqb beta WORST_SCORE = true ->
    fst (search_node depth position alpha beta st) = LowerBound MATED /\
    hashmap (snd (search_node depth position alpha beta st)) = hashmap st) /\
  (forall (depth : nat) (position : Board) (alpha beta : BoardScore) (st : Searcher Move)
      (e : HashEntry Move) (r : BoundedScore),
    bs_le BEST_SCORE alpha = false -> bs_eqb beta WORST_SCORE = false ->
    hm_get (hashmap st) (get_hash position) = Some e ->
    probe_table (stop_condition_at stop_now_at elapsed_at (stop_conditions st) (polls st))
      depth alpha beta (Some e) = Some r ->
    fst (search_node depth position alpha beta st) = r /\
    hashmap (snd (search_node depth position alpha beta st)) = hashmap st).
Proof.
  split; [| split; [| split]].
  - intros depth position alpha beta st Hd Hstop Hnone Halpha Hbeta Hentry r.
    destruct depth as [| d]; [lia |]. cbn [alphabeta_search].
    rewrite Halpha, Hbeta. unfold should_stop_search.
    change (hashmap (incr_polls (incr_nodes st))) with (hashmap st).
    change (stop_conditions (incr_nodes st)) with (stop_conditions st).
    rewrite !Hstop.
    assert (Hp : probe_table false (S d) alpha beta
                   (hm_get (hashmap st) (get_hash position)) = None /\
                 match hm_get (hashmap st) (get_hash position) with
                 | Some e => he_best_move e | None => None end = None).
    { destruct (hm_get (hashmap st) (get_hash position)) as [e |] eqn:E.
      - destruct (Hentry e eq_refl) as [Hb Hp]. rewrite Hb. auto.
      - auto. }
    destruct Hp as [Hp Hb]. rewrite Hp, Hb. cbn [negb].
    unfold mg_items. rewrite mg_collect_new. rewrite Hnone. cbn [default from_option id moves_loop].
    unfold finish_node. cbn [any_moves deficient_search best_move].
    unfold should_stop_search.
    change (stop_conditions (incr_polls (incr_nodes st))) with (stop_conditions st).
    rewrite Hstop.
    unfold r. destruct (in_check position); split; reflexivity.
  - intros depth position alpha beta st Ha.
    destruct depth as [| d]; cbn [alphabeta_search]; rewrite Ha; split; reflexivity.
  - intros depth position alpha beta st Ha Hb.
    destruct depth as [| d]; cbn [alphabeta_search]; rewrite Ha, Hb; split; reflexivity.
  - intros depth position alpha beta st e r Ha Hb He Hp.
    destruct depth as [| d]; cbn [alphabeta_search]; rewrite Ha, Hb;
      unfold should_stop_search; cbn [incr_nodes polls stop_conditions hashmap incr_polls];
      rewrite He, Hp; split; reflexivity.
Qed.
End SearchProofs.

(** C3: with [alpha = BEST_SCORE] the call returns [UpperBound MATE] before
    looking at the moves, although the depth is positive, no stop condition
    is met and the position has no legal moves. *)
Lemma mated_position_alpha_best :
  (forall k, stop_condition_at (fun _ => false) (fun _ => 0)
               (stop_conditions fresh_searcher) k = false) /\
  fst (mated_search 1 5 BEST_SCORE BEST_SCORE fresh_searcher) = UpperBound MATE /\
  fst (mated_search 1 5 BEST_SCORE BEST_SCORE fresh_searcher) <> Exact MATED.
Proof.
  split; [intros k; reflexivity |]. split; [vm_compute; reflexivity | vm_compute; discriminate].
Qed.

Lemma no_moves_scored_and_stored_witness :
  ((0 < 1)%nat /\
   (forall k, stop_condition_at (fun _ => false) (fun _ => 0)
                (stop_conditions fresh_searcher) k = false) /\
   (fun _ : Z => @nil unit) 5 = [] /\
   bs_le BEST_SCORE WORST_SCORE = false /\ bs_eqb BEST_SCORE WORST_SCORE = false /\
   (forall e, hm_get (hashmap fresh_searcher) 5 = Some e ->
      he_best_move e = None /\ probe_table false 1 WORST_SCORE BEST_SCORE (Some e) = None)) /\
  (fst (mated_search 1 5 WORST_SCORE BEST_SCORE fresh_searcher) = Exact MATED /\
   hashmap (snd (mated_search 1 5 WORST_SCORE BEST_SCORE fresh_searcher)) =
     hm_insert (hashmap fresh_searcher) 5 (with_contents 5 None (Exact MATED) DEPTH_MAX)).
Proof.
  assert (He : forall e, hm_get (hashmap fresh_searcher) 5 = Some e ->
      he_best_move e = None /\ probe_table false 1 WORST_SCORE BEST_SCORE (Some e) = None).
  { intros e H. vm_compute in H. discriminate. }
  split.
  { split; [lia |]. split; [intros k; reflexivity |]. split; [reflexivity |].
    split; [reflexivity |]. split; [reflexivity | exact He]. }
  exact (proj1 (no_moves_scored_and_stored unit Z (fun b => b) (fun _ => []) (fun b _ => b)
           (fun _ => true) (fun _ _ => 0) (fun _ _ => 0) (fun _ => false) (fun _ => 0))
           1%nat 5 WORST_SCORE BEST_SCORE fresh_searcher ltac:(lia) (fun k => eq_refl) eq_refl
           eq_refl eq_refl He).
Defined.

(* ===================================================================== *)
(** * Further properties of the code *)
(* ===================================================================== *)

(** ** score.rs *)

Lemma MATE_val : MATE = BS 32766. Proof. reflexivity. Qed.
Lemma MATED_val : MATED = BS (-32766). Proof. reflexivity. Qed.
Lemma MATE_RANGE_BOTTOM_val : MATE_RANGE_BOTTOM = BS 32511. Proof. reflexivity. Qed.
Lemma MATED_RANGE_TOP_val : MATED_RANGE_TOP = BS (-32511). Proof. reflexivity. Qed.
Lemma BEST_SCORE_val : BEST_SCORE = BS 32767. Proof. reflexivity. Qed.
Lemma WORST_SCORE_val : WORST_SCORE = BS (-32767). Proof. reflexivity. Qed.
Lemma NO_SCORE_val : NO_SCORE = BS (-32768). Proof. reflexivity. Qed.

Ltac no_if t :=
  lazymatch t with context [if _ then _ else _] => fail | _ => idtac end.

(** Case analysis on every comparison of a [BoardScore] expression. *)
Ltac score_cases :=
  unfold bs_neg, increment_mate_plies, decrement_mate_plies, is_mate_score,
    score_description, bs_le, bs_lt, bs_eqb, in_i16 in *;
  rewrite ?MATE_val, ?MATED_val, ?MATE_RANGE_BOTTOM_val, ?MATED_RANGE_TOP_val,
    ?BEST_SCORE_val, ?WORST_SCORE_val, ?NO_SCORE_val in *;
  cbn [inner] in *;
  repeat (match goal with
    | |- context [Z.eqb ?a ?b] => no_if a; destruct (Z.eqb_spec a b)
    | |- context [Z.ltb ?a ?b] => no_if a; no_if b; destruct (Z.ltb_spec a b)
    | |- context [Z.leb ?a ?b] => no_if a; no_if b; destruct (Z.leb_spec a b)
    end; cbn [negb andb orb inner] in *);
  try lia; try (f_equal; lia).

(** Case analysis for [partial_cmp] and the comparison operators built on it. *)
Ltac cmp_cases :=
  unfold bounded_gt, bounded_ge, bounded_neg, partial_cmp, score_cmp, bs_le, bound_rank in *;
  cbn [inner] in *;
  repeat (match goal with
    | |- context [Z.leb ?a ?b] => destruct (Z.leb_spec a b)
    | |- context [Z.compare ?a ?b] => destruct (Z.compare_spec a b)
    end; cbn [option_map CompOpp] in *);
  try lia; try reflexivity;
  try (split; intros; first [reflexivity | discriminate | lia]).

(** X1: on every [i16] value, [NO_SCORE] included, [BoardScore::neg]
    stays in [i16] and is an involution. *)
Theorem bs_neg_involutive (s : BoardScore) :
  in_i16 s -> in_i16 (bs_neg s) /\ bs_neg (bs_neg s) = s.
Proof. intros H. destruct s as [z]. split; score_cases. Qed.

Lemma bs_neg_involutive_witness :
  in_i16 (BS (-32768)) /\ bs_neg (bs_neg (BS (-32768))) = BS (-32768).
Proof.
  split; [unfold in_i16; cbn; lia |].
  apply (bs_neg_involutive (BS (-32768))). unfold in_i16; cbn; lia.
Defined.

(** X2: negation commutes with [increment_mate_plies] and
    [decrement_mate_plies], and preserves [is_mate_score]: the mate windows
    of the two sides are mirror images. *)
Theorem mate_plies_neg (s : BoardScore) :
  in_i16 s ->
  increment_mate_plies (bs_neg s) = bs_neg (increment_mate_plies s) /\
  decrement_mate_plies (bs_neg s) = bs_neg (decrement_mate_plies s) /\
  is_mate_score (bs_neg s) = is_mate_score s.
Proof. intros H. destruct s as [z]. repeat split; score_cases. Qed.

Lemma mate_plies_neg_witness :
  in_i16 (BS 32600) /\
  decrement_mate_plies (bs_neg (BS 32600)) = bs_neg (decrement_mate_plies (BS 32600)).
Proof.
  split; [unfold in_i16; cbn; lia |].
  apply (mate_plies_neg (BS 32600)). unfold in_i16; cbn; lia.
Defined.

(** X3: [decrement_mate_plies] undoes [increment_mate_plies] on every
    [i16] score except the two saturating ends [MATE_RANGE_BOTTOM] and
    [MATED_RANGE_TOP], which increment leaves unchanged. *)
Theorem decrement_increment_mate_plies (s : BoardScore) :
  in_i16 s -> s <> MATE_RANGE_BOTTOM -> s <> MATED_RANGE_TOP ->
  decrement_mate_plies (increment_mate_plies s) = s.
Proof.
  intros H H1 H2. destruct s as [z].
  assert (z <> 32511) by (intro; subst; apply H1; reflexivity).
  assert (z <> -32511) by (intro; subst; apply H2; reflexivity).
  score_cases.
Qed.

Lemma decrement_increment_mate_plies_witness :
  (in_i16 (BS 32765) /\ BS 32765 <> MATE_RANGE_BOTTOM /\ BS 32765 <> MATED_RANGE_TOP) /\
  decrement_mate_plies (increment_mate_plies (BS 32765)) = BS 32765.
Proof.
  assert (H1 : in_i16 (BS 32765)) by (unfold in_i16; cbn; lia).
  assert (H2 : BS 32765 <> MATE_RANGE_BOTTOM) by (vm_compute; intros [=]).
  assert (H3 : BS 32765 <> MATED_RANGE_TOP) by (vm_compute; intros [=]).
  split; [split; [exact H1 | split; [exact H2 | exact H3]] |].
  exact (decrement_increment_mate_plies (BS 32765) H1 H2 H3).
Defined.

(** X4: what [Display] prints for a score: [MATE - n] is [mate (n+1)/2] and
    [MATED + n] is [mate -(n/2)] for [n] in [0..255], the scores strictly
    between the two mate windows are printed as [cp] with their value, and
    the sentinels fall in the mate branches: [BEST_SCORE] and [WORST_SCORE]
    print [mate 0], [NO_SCORE] prints [mate 1]. *)
Theorem score_description_ranges :
  (forall n, 0 <= n <= 255 -> score_description (BS (inner MATE - n)) = Mate ((n + 1) / 2)) /\
  (forall n, 0 <= n <= 255 -> score_description (BS (inner MATED + n)) = Mate (- (n / 2))) /\
  (forall s, bs_lt MATED_RANGE_TOP s = true -> bs_lt s MATE_RANGE_BOTTOM = true ->
     score_description s = Cp (inner s)) /\
  score_description BEST_SCORE = Mate 0 /\
  score_description WORST_SCORE = Mate 0 /\
  score_description NO_SCORE = Mate 1.
Proof.
  repeat split.
  - intros n Hn. unfold score_description, bs_le.
    rewrite MATE_val, MATE_RANGE_BOTTOM_val; cbn [inner].
    rewrite (proj2 (Z.leb_le _ _)) by lia. f_equal.
    rewrite Z.quot_div_nonneg by lia. f_equal. lia.
  - intros n Hn. unfold score_description, bs_le.
    rewrite MATED_val, MATE_RANGE_BOTTOM_val, MATED_RANGE_TOP_val; cbn [inner].
    rewrite (proj2 (Z.leb_gt _ _)) by lia. rewrite (proj2 (Z.leb_le _ _)) by lia. f_equal.
    replace (-32766 - (-32766 + n)) with (- n) by lia.
    rewrite Z.quot_opp_l by lia. rewrite Z.quot_div_nonneg by lia. reflexivity.
  - intros [s] H1 H2. unfold score_description, bs_le, bs_lt in *.
    rewrite MATED_RANGE_TOP_val, MATE_RANGE_BOTTOM_val in *; cbn [inner] in *.
    apply Z.ltb_lt in H1, H2.
    rewrite (proj2 (Z.leb_gt _ _)) by lia. rewrite (proj2 (Z.leb_gt _ _)) by lia. reflexivity.
Qed.

(** X5: [partial_cmp] is antisymmetric: swapping the operands reverses the
    ordering, and an incomparable pair stays incomparable. *)
Theorem partial_cmp_antisym (x y : BoundedScore) :
  partial_cmp y x = option_map CompOpp (partial_cmp x y).
Proof. destruct x as [[a]|[a]|[a]], y as [[b]|[b]|[b]]; cmp_cases. Qed.

(** X6: [BoundedScore::neg] reverses the order: for scores other than
    [NO_SCORE], comparing the negations gives the comparison of the
    operands swapped (a [LowerBound] becomes an [UpperBound] and back). *)
Theorem partial_cmp_neg (x y : BoundedScore) :
  in_i16 (unwrap x) -> in_i16 (unwrap y) ->
  unwrap x <> NO_SCORE -> unwrap y <> NO_SCORE ->
  partial_cmp (bounded_neg x) (bounded_neg y) = partial_cmp y x.
Proof.
  intros Hx Hy Nx Ny.
  destruct x as [[a]|[a]|[a]], y as [[b]|[b]|[b]]; cbn [unwrap] in *;
  unfold in_i16 in *; cbn [inner] in *;
  (assert (a <> -32768) by (intro; subst; apply Nx; reflexivity));
  (assert (b <> -32768) by (intro; subst; apply Ny; reflexivity));
  unfold bounded_neg, bs_neg; rewrite NO_SCORE_val; cbn [inner];
  rewrite (proj2 (Z.eqb_neq a (-32768))), (proj2 (Z.eqb_neq b (-32768))) by assumption;
  cbn [negb]; cmp_cases.
Qed.

Lemma partial_cmp_neg_witness :
  (in_i16 (unwrap (LowerBound (BS 10))) /\ in_i16 (unwrap (UpperBound (BS (-3)))) /\
   unwrap (LowerBound (BS 10)) <> NO_SCORE /\ unwrap (UpperBound (BS (-3))) <> NO_SCORE) /\
  partial_cmp (bounded_neg (LowerBound (BS 10))) (bounded_neg (UpperBound (BS (-3)))) =
    partial_cmp (UpperBound (BS (-3))) (LowerBound (BS 10)).
Proof.
  assert (H1 : in_i16 (unwrap (LowerBound (BS 10)))) by (unfold in_i16; cbn; lia).
  assert (H2 : in_i16 (unwrap (UpperBound (BS (-3))))) by (unfold in_i16; cbn; lia).
  assert (H3 : unwrap (LowerBound (BS 10)) <> NO_SCORE) by (vm_compute; intros [=]).
  assert (H4 : unwrap (UpperBound (BS (-3))) <> NO_SCORE) by (vm_compute; intros [=]).
  split; [exact (conj H1 (conj H2 (conj H3 H4))) |].
  exact (partial_cmp_neg (LowerBound (BS 10)) (UpperBound (BS (-3))) H1 H2 H3 H4).
Defined.

(** X7: [x > y] on bounded scores holds exactly when the score of [x] is
    strictly greater and the kind of [x] ranks at least as high in the
    order [UpperBound] < [Exact] < [LowerBound]. *)
Theorem bounded_gt_iff (x y : BoundedScore) :
  bounded_gt x y = true <->
  inner (unwrap y) < inner (unwrap x) /\ bound_rank y <= bound_rank x.
Proof. destruct x as [[a]|[a]|[a]], y as [[b]|[b]|[b]]; cbn [unwrap]; cmp_cases.
Qed.

(** X8: [>=] on bounded scores is not transitive: for [b < a],
    [Exact a >= UpperBound b] and [UpperBound b >= LowerBound b] (the two
    compare [Equal]), yet [Exact a] and [LowerBound b] are incomparable. *)
Theorem bounded_ge_not_transitive (a b : BoardScore) :
  inner b < inner a ->
  bounded_ge (Exact a) (UpperBound b) = true /\
  bounded_ge (UpperBound b) (LowerBound b) = true /\
  partial_cmp (UpperBound b) (LowerBound b) = Some Eq /\
  partial_cmp (Exact a) (LowerBound b) = None.
Proof. intros H. destruct a as [a], b as [b]; cbn [inner] in H; repeat split; cmp_cases. Qed.

Lemma bounded_ge_not_transitive_witness :
  inner (BS 0) < inner (BS 1) /\
  partial_cmp (Exact (BS 1)) (LowerBound (BS 0)) = None.
Proof. split; [cbn; lia | apply (bounded_ge_not_transitive (BS 1) (BS 0)); cbn; lia]. Defined.

(** ** evaluation.rs *)

Lemma wrap_i16_shift (x m : Z) : wrap_i16 (x + m * 65536) = wrap_i16 x.
Proof.
  unfold wrap_i16. replace (x + m * 65536 + 32768) with (x + 32768 + m * 65536) by ring.
  rewrite Z_mod_plus_full. reflexivity.
Qed.

Lemma wrap_i16_def (a : Z) : exists q, wrap_i16 a = a + q * 65536.
Proof.
  exists (- ((a + 32768) / 65536)). unfold wrap_i16.
  rewrite Z.mod_eq by lia. ring.
Qed.

Lemma wrap_i16_small (a : Z) : -32768 <= a <= 32767 -> wrap_i16 a = a.
Proof.
  intros H. unfold wrap_i16. rewrite Z.mod_small by lia. ring.
Qed.

Lemma wrap_i16_range (a : Z) : -32768 <= wrap_i16 a <= 32767.
Proof. unfold wrap_i16. pose proof (Z.mod_pos_bound (a + 32768) 65536). lia. Qed.

Lemma bs_eta (s : BoardScore) : s = BS (inner s).
Proof. destruct s. reflexivity. Qed.

Section EvaluationProofs.
Variable Board : Type.
Variable color_combined : Board -> Color -> Z.
Variable pieces : Board -> Piece -> Z.

Lemma evaluate_piece_values_wrap (cc : Board -> Color -> Z) board :
  inner (evaluate_piece_values Board cc pieces board) =
  wrap_i16 (900 * (popcnt (Z.land (pieces board Queen) (cc board White)) - popcnt (Z.land (pieces board Queen) (cc board Black))) +
            500 * (popcnt (Z.land (pieces board Rook) (cc board White)) - popcnt (Z.land (pieces board Rook) (cc board Black))) +
            300 * (popcnt (Z.land (pieces board Knight) (cc board White)) - popcnt (Z.land (pieces board Knight) (cc board Black))) +
            300 * (popcnt (Z.land (pieces board Bishop) (cc board White)) - popcnt (Z.land (pieces board Bishop) (cc board Black))) +
            100 * (popcnt (Z.land (pieces board Pawn) (cc board White)) - popcnt (Z.land (pieces board Pawn) (cc board Black)))).
Proof.
  unfold evaluate_piece_values, evaluation_score. cbn [inner].
  set (q := popcnt (Z.land (pieces board Queen) (cc board White)) - popcnt (Z.land (pieces board Queen) (cc board Black))).
  set (r := popcnt (Z.land (pieces board Rook) (cc board White)) - popcnt (Z.land (pieces board Rook) (cc board Black))).
  set (n := popcnt (Z.land (pieces board Knight) (cc board White)) - popcnt (Z.land (pieces board Knight) (cc board Black))).
  set (b := popcnt (Z.land (pieces board Bishop) (cc board White)) - popcnt (Z.land (pieces board Bishop) (cc board Black))).
  set (p := popcnt (Z.land (pieces board Pawn) (cc board White)) - popcnt (Z.land (pieces board Pawn) (cc board Black))).
  destruct (wrap_i16_def q) as [k1 ->]. destruct (wrap_i16_def r) as [k2 ->].
  destruct (wrap_i16_def n) as [k3 ->]. destruct (wrap_i16_def b) as [k4 ->].
  destruct (wrap_i16_def p) as [k5 ->].
  destruct (wrap_i16_def (900 * (q + k1 * 65536))) as [j1 ->].
  destruct (wrap_i16_def (0 + (900 * (q + k1 * 65536) + j1 * 65536))) as [i1 ->].
  destruct (wrap_i16_def (500 * (r + k2 * 65536))) as [j2 ->].
  destruct (wrap_i16_def (0 + (900 * (q + k1 * 65536) + j1 * 65536) + i1 * 65536 + (500 * (r + k2 * 65536) + j2 * 65536))) as [i2 ->].
  destruct (wrap_i16_def (300 * (n + k3 * 65536))) as [j3 ->].
  match goal with |- context [wrap_i16 (?x + (300 * (n + k3 * 65536) + j3 * 65536))] =>
    destruct (wrap_i16_def (x + (300 * (n + k3 * 65536) + j3 * 65536))) as [i3 ->] end.
  destruct (wrap_i16_def (300 * (b + k4 * 65536))) as [j4 ->].
  match goal with |- context [wrap_i16 (?x + (300 * (b + k4 * 65536) + j4 * 65536))] =>
    destruct (wrap_i16_def (x + (300 * (b + k4 * 65536) + j4 * 65536))) as [i4 ->] end.
  destruct (wrap_i16_def (100 * (p + k5 * 65536))) as [j5 ->].
  match goal with |- wrap_i16 ?x = wrap_i16 ?y =>
    replace x with (y + (900 * k1 + j1 + i1 + 500 * k2 + j2 + i2 + 300 * k3 + j3 + i3 + 300 * k4 + j4 + i4 + 100 * k5 + j5) * 65536) by ring end.
  apply wrap_i16_shift.
Qed.

(** X9: [evaluate_piece_values] is White's material minus Black's
    (queen 900, rook 500, knight and bishop 300, pawn 100) reduced to [i16]
    by the wrap-around of its [i16] arithmetic; the intermediate overflows
    cancel, so the result is the exact balance whenever that fits in [i16]. *)
Theorem evaluate_piece_values_material board :
  let balance p := popcnt (Z.land (pieces board p) (color_combined board White)) -
                   popcnt (Z.land (pieces board p) (color_combined board Black)) in
  let m := 900 * balance Queen + 500 * balance Rook + 300 * balance Knight +
           300 * balance Bishop + 100 * balance Pawn in
  inner (evaluate_piece_values Board color_combined pieces board) = wrap_i16 m /\
  (-32768 <= m <= 32767 -> inner (evaluate_piece_values Board color_combined pieces board) = m).
Proof.
  intros balance m. rewrite evaluate_piece_values_wrap. split; [reflexivity |].
  intros H. apply wrap_i16_small. exact H.
Qed.

(** X10: exchanging the colours of all pieces negates the evaluation
    ([BoardScore::neg], which maps [-32768] to itself). *)
Theorem evaluate_piece_values_color_swap board :
  evaluate_piece_values Board (fun b c => color_combined b (swap_colors c)) pieces board =
  bs_neg (evaluate_piece_values Board color_combined pieces board).
Proof.
  rewrite (bs_eta (evaluate_piece_values Board (fun b c => color_combined b (swap_colors c)) pieces board)).
  rewrite (bs_eta (evaluate_piece_values Board color_combined pieces board)).
  rewrite !evaluate_piece_values_wrap. cbn [swap_colors].
  match goal with |- BS (wrap_i16 ?x) = bs_neg (BS (wrap_i16 ?y)) =>
    replace x with (- y) by ring; generalize y end.
  intros y. destruct (wrap_i16_def y) as [k Hk].
  assert (Hn : wrap_i16 (- y) = wrap_i16 (- wrap_i16 y)).
  { rewrite Hk. replace (- (y + k * 65536)) with (- y + (- k) * 65536) by ring.
    symmetry. apply wrap_i16_shift. }
  pose proof (wrap_i16_range y) as Hr.
  unfold bs_neg. rewrite NO_SCORE_val. cbn [inner]. rewrite Hn.
  destruct (Z.eqb_spec (wrap_i16 y) (-32768)) as [E|E]; cbn [negb].
  - rewrite E. reflexivity.
  - rewrite wrap_i16_small by lia. reflexivity.
Qed.
End EvaluationProofs.

(** ** hash.rs *)

(** X11: the bit fields of [HashEntryInfo]: each setter is read back by its
    getter and leaves the other field unchanged, and [HashEntryInfo::new]
    reads back both of its arguments and fits in the low four bits. *)
Theorem hash_entry_info_fields (b : Z) (k : HashEntryKind) (t : BoardScoreType) :
  info_entry_kind (info_set_entry_kind b k) = Some k /\
  info_score_type (info_set_entry_kind b k) = info_score_type b /\
  info_score_type (info_set_score_type b t) = Some t /\
  info_entry_kind (info_set_score_type b t) = info_entry_kind b /\
  info_entry_kind (info_new k t) = Some k /\
  info_score_type (info_new k t) = Some t /\
  0 <= info_new k t < 16.
Proof.
  unfold info_entry_kind, info_score_type, info_set_entry_kind, info_set_score_type.
  rewrite !Z.land_lor_distr_l, <- !Z.land_assoc.
  replace (Z.land (Z.lnot 3 mod 256) 3) with 0 by reflexivity.
  replace (Z.land (Z.lnot 3 mod 256) 12) with 12 by reflexivity.
  replace (Z.land (Z.lnot 12 mod 256) 12) with 0 by reflexivity.
  replace (Z.land (Z.lnot 12 mod 256) 3) with 3 by reflexivity.
  rewrite !Z.land_0_r, !Z.lor_0_l.
  destruct k, t; simpl; rewrite ?Z.lor_0_r; repeat split; cbv; discriminate.
Qed.

Section HashProofs.
Variable Move : Type.

Lemma find_split {A} (f : A -> bool) (l : list A) (x : A) :
  find f l = Some x ->
  exists pre post, l = pre ++ x :: post /\ forall y, In y pre -> f y = false.
Proof.
  induction l as [| a l IH]; cbn; [discriminate |].
  destruct (f a) eqn:Ea.
  - intros [= ->]. exists [], l. split; [reflexivity | intros y []].
  - intros H. destruct (IH H) as (pre & post & -> & Hp).
    exists (a :: pre), post. split; [reflexivity |].
    intros y [<- | Hy]; [exact Ea | exact (Hp y Hy)].
Qed.

Lemma first_occurrence (l : list Z) (x : Z) :
  In x l -> exists pre post, l = pre ++ x :: post /\ ~ In x pre.
Proof.
  intros H. assert (Hf : find (Z.eqb x) l = Some x).
  { induction l as [| a l IH]; [destruct H |]. cbn.
    destruct (Z.eqb_spec x a) as [-> | Ne]; [reflexivity |].
    apply IH. destruct H as [-> | H]; [congruence | exact H]. }
  destruct (find_split _ _ _ Hf) as (pre & post & E & Hp).
  exists pre, post. split; [exact E |]. intros Hin. specialize (Hp x Hin).
  rewrite Z.eqb_refl in Hp. discriminate.
Qed.

Lemma select_slot_slots (hm : HashMap Move) (hash : Z) (cands : list Z) :
  hm_slots (snd (select_slot hm hash cands)) = hm_slots hm /\
  hm_capacity (snd (select_slot hm hash cands)) = hm_capacity hm /\
  hm_generation (snd (select_slot hm hash cands)) = hm_generation hm /\
  (hm_count (snd (select_slot hm hash cands)) = hm_count hm \/
   hm_count (snd (select_slot hm hash cands)) = S (hm_count hm)).
Proof.
  unfold select_slot. destruct (get_existing_slot hm hash cands); [cbn; auto |].
  unfold get_empty_slot. destruct (find _ cands); [cbn; auto |].
  unfold get_purgeable_slot. destruct (find _ cands); [cbn; auto |].
  destruct (List.filter _ cands); cbn; auto.
Qed.

Lemma select_slot_in (hm : HashMap Move) (hash : Z) (cands : list Z) :
  cands <> [] -> In (fst (select_slot hm hash cands)) cands.
Proof.
  intros Hne.
  unfold select_slot, get_existing_slot, get_empty_slot, get_purgeable_slot.
  destruct (find (fun i => he_hash (get_slot hm i) =? hash) cands) eqn:E1; [apply find_some in E1; exact (proj1 E1) |].
  destruct (find (fun i => negb (is_used (he_entry_type (get_slot hm i)))) cands) eqn:E2; [apply find_some in E2; exact (proj1 E2) |].
  cbn iota. destruct (find (fun i => 2 <=? wrapping_sub_u8 (hm_generation hm) (he_generation (get_slot hm i))) cands) eqn:E3; [apply find_some in E3; exact (proj1 E3) |].
  destruct (List.filter _ cands) as [| z l] eqn:E4.
  - apply lowest_depth_spec. exact Hne.
  - destruct (lowest_depth_spec _ hm (z :: l) ltac:(discriminate)) as [H _].
    cbn [fst]. set (ld := lowest_depth hm (z :: l)) in *. rewrite <- E4 in H. apply filter_In in H. exact (proj1 H).
Qed.

(** The slot chosen is preceded in [cands] only by slots that are not it and
    do not hold the key. *)
Lemma select_slot_prefix (hm : HashMap Move) (hash : Z) (cands : list Z) :
  cands <> [] ->
  exists pre post, cands = pre ++ fst (select_slot hm hash cands) :: post /\
    forall c, In c pre -> c <> fst (select_slot hm hash cands) /\ he_hash (get_slot hm c) <> hash.
Proof.
  intros Hne. pose proof (select_slot_in hm hash cands Hne) as Hin.
  destruct (find (fun i => he_hash (get_slot hm i) =? hash) cands) as [s |] eqn:E1.
  - assert (Hs : fst (select_slot hm hash cands) = s)
      by (unfold select_slot, get_existing_slot; rewrite E1; reflexivity).
    rewrite Hs. destruct (find_split _ _ _ E1) as (pre & post & E & Hp).
    pose proof (find_some _ _ E1) as [_ Es]. apply Z.eqb_eq in Es.
    exists pre, post. split; [exact E |]. intros c Hc. specialize (Hp c Hc).
    apply Z.eqb_neq in Hp. split; [intros ->; contradiction | exact Hp].
  - destruct (first_occurrence _ _ Hin) as (pre & post & E & Hp).
    exists pre, post. split; [exact E |]. intros c Hc. split.
    + intros ->. contradiction.
    + intros Eq. pose proof (find_none _ _ E1 c) as N. cbn beta in N.
      rewrite E, Eq, Z.eqb_refl in N. assert (true = false) by (apply N; apply in_or_app; left; exact Hc). discriminate.
Qed.

Lemma insert_into_other (hm : HashMap Move) (hash : Z) (entry : HashEntry Move)
    (cands : list Z) (i : Z) :
  0 <= i -> 0 <= fst (select_slot hm hash cands) -> i <> fst (select_slot hm hash cands) ->
  get_slot (insert_into hm hash entry cands) i = get_slot hm i.
Proof.
  intros Hi Hs Ne. destruct (select_slot_slots hm hash cands) as (Hsl & _).
  unfold insert_into. destruct (select_slot hm hash cands) as [s hm'] eqn:E.
  cbn [fst snd] in *. unfold get_slot, write_slot. cbn [hm_slots]. rewrite Hsl.
  rewrite list_lookup_insert_ne; [reflexivity |]. intros Eq. apply Ne. lia.
Qed.

Lemma insert_into_fields (hm : HashMap Move) (hash : Z) (entry : HashEntry Move)
    (cands : list Z) :
  length (hm_slots (insert_into hm hash entry cands)) = length (hm_slots hm) /\
  hm_capacity (insert_into hm hash entry cands) = hm_capacity hm /\
  hm_generation (insert_into hm hash entry cands) = hm_generation hm /\
  (hm_count (insert_into hm hash entry cands) = hm_count hm \/
   hm_count (insert_into hm hash entry cands) = S (hm_count hm)).
Proof.
  destruct (select_slot_slots hm hash cands) as (Hsl & Hc & Hg & Hn).
  unfold insert_into. destruct (select_slot hm hash cands) as [s hm'] eqn:E.
  cbn [fst snd] in *. unfold write_slot; cbn [hm_slots hm_capacity hm_generation hm_count].
  rewrite length_insert, Hsl. auto.
Qed.

Lemma filter_all_false {A} (f : A -> bool) (l : list A) :
  (forall x, In x l -> f x = false) -> List.filter f l = [].
Proof.
  induction l as [| a l IH]; intros H; [reflexivity |]. cbn.
  rewrite (H a (or_introl eq_refl)). apply IH. intros x Hx. apply H. right. exact Hx.
Qed.

Lemma hm_get_cands (hm : HashMap Move) (hash : Z) :
  hm_get hm hash =
  match List.filter (fun e => (he_hash e =? hash) && is_used (he_entry_type e))
          (map (get_slot hm) (get_slot_idx_for_hash (hm_capacity hm) hash)) with
  | [] => None
  | e :: _ => Some e
  end.
Proof. reflexivity. Qed.

Lemma hm_insert_lookup (hm : HashMap Move) (hash : Z) (entry : HashEntry Move) :
  4 <= hm_capacity hm -> 0 <= hash < 2 ^ 64 ->
  length (hm_slots hm) = Z.to_nat (hm_capacity hm) ->
  is_used (he_entry_type entry) = true ->
  hm_get (hm_insert hm hash entry) hash = Some (stamp entry hash (hm_generation hm)).
Proof.
  intros Hcap Hh Hlen Hu.
  destruct (slot_idx_for_hash_range (hm_capacity hm) hash Hcap Hh) as [Hl Hr].
  rewrite hm_get_cands, hm_insert_into.
  destruct (insert_into_fields hm hash entry (get_slot_idx_for_hash (hm_capacity hm) hash)) as (_ & -> & _).
  generalize dependent (get_slot_idx_for_hash (hm_capacity hm) hash). intros cands Hl Hr.
  assert (Hne : cands <> []) by (intros ->; discriminate).
  destruct (select_slot_prefix hm hash cands Hne) as (pre & post & E & Hp).
  pose proof (select_slot_in hm hash cands Hne) as Hin.
  destruct (Hr _ Hin) as [Hs0 Hs1].
  assert (Hw : get_slot (insert_into hm hash entry cands) (fst (select_slot hm hash cands))
               = stamp entry hash (hm_generation hm)).
  { apply insert_into_written; [lia | rewrite Hlen; apply Z2Nat.inj_lt; lia]. }
  rewrite E at 2. rewrite map_app, List.filter_app. cbn [map]. rewrite Hw.
  rewrite filter_all_false.
  - cbn [app List.filter he_hash he_entry_type stamp]. rewrite Z.eqb_refl, Hu. reflexivity.
  - intros x Hx. apply in_map_iff in Hx as (c & <- & Hc).
    destruct (Hp c Hc) as [Nc Nh].
    assert (Hc0 : 0 <= c) by (apply Hr; rewrite E; apply in_or_app; left; exact Hc).
    rewrite insert_into_other by lia.
    apply Z.eqb_neq in Nh. rewrite Nh. reflexivity.
Qed.

(** X12: after [insert] of a used entry under a 64-bit hash, [get] of that
    hash returns the entry just written (with the hash and the current
    generation stamped in), whatever the table held before, provided the
    table has at least four slots and as many slots as its capacity. *)
Theorem hm_insert_get (hm : HashMap Move) (hash : Z) (entry : HashEntry Move) :
  4 <= hm_capacity hm -> 0 <= hash < 2 ^ 64 ->
  length (hm_slots hm) = Z.to_nat (hm_capacity hm) ->
  is_used (he_entry_type entry) = true ->
  hm_get (hm_insert hm hash entry) hash = Some (stamp entry hash (hm_generation hm)).
Proof. apply hm_insert_lookup. Qed.

(** X13: an entry built by [HashEntry::with_contents] and inserted is found
    again by [get]: [HashEntry::score] gives back the bounded score stored,
    and the best move and the depth are the ones given. *)
Theorem insert_with_contents_probe (hm : HashMap Move) (hash : Z)
    (best_move : option Move) (score : BoundedScore) (depth : nat) :
  4 <= hm_capacity hm -> 0 <= hash < 2 ^ 64 ->
  length (hm_slots hm) = Z.to_nat (hm_capacity hm) ->
  exists e, hm_get (hm_insert hm hash (with_contents hash best_move score depth)) hash = Some e /\
    entry_score e = score /\ he_best_move e = best_move /\ he_depth e = depth.
Proof.
  intros Hcap Hh Hlen. eexists. split.
  - apply hm_insert_lookup; [exact Hcap | exact Hh | exact Hlen | reflexivity].
  - destruct score; repeat split.
Qed.

(** X14: [insert] keeps the capacity, the generation and the number of
    slots, raises [count] by at most one, and changes no slot other than
    the one [get_mut_or_new_slot] selects. *)
Theorem hm_insert_frame (hm : HashMap Move) (hash : Z) (entry : HashEntry Move) :
  4 <= hm_capacity hm -> 0 <= hash < 2 ^ 64 ->
  length (hm_slots (hm_insert hm hash entry)) = length (hm_slots hm) /\
  hm_capacity (hm_insert hm hash entry) = hm_capacity hm /\
  hm_generation (hm_insert hm hash entry) = hm_generation hm /\
  (hm_count (hm_insert hm hash entry) = hm_count hm \/
   hm_count (hm_insert hm hash entry) = S (hm_count hm)) /\
  (forall i, 0 <= i -> i <> fst (get_mut_or_new_slot hm hash) ->
     get_slot (hm_insert hm hash entry) i = get_slot hm i).
Proof.
  intros Hcap Hh.
  destruct (slot_idx_for_hash_range (hm_capacity hm) hash Hcap Hh) as [Hl Hr].
  rewrite hm_insert_into. unfold get_mut_or_new_slot. cbv zeta.
  generalize dependent (get_slot_idx_for_hash (hm_capacity hm) hash). intros cands Hl Hr.
  assert (Hne : cands <> []) by (intros ->; discriminate).
  destruct (insert_into_fields hm hash entry cands) as (H1 & H2 & H3 & H4).
  split; [exact H1 |]. split; [exact H2 |]. split; [exact H3 |]. split; [exact H4 |].
  intros i Hi Ne. apply insert_into_other; [exact Hi | | exact Ne].
  apply Hr. apply select_slot_in. exact Hne.
Qed.

(** X15: what [get] returns is a used entry carrying the hash asked for,
    read from one of the four candidate slots of that hash. *)
Theorem hm_get_sound (hm : HashMap Move) (hash : Z) (e : HashEntry Move) :
  hm_get hm hash = Some e ->
  he_hash e = hash /\ is_used (he_entry_type e) = true /\
  exists i, In i (get_slot_idx_for_hash (hm_capacity hm) hash) /\ get_slot hm i = e.
Proof.
  rewrite hm_get_cands.
  generalize (get_slot_idx_for_hash (hm_capacity hm) hash). intros cands.
  destruct (List.filter _ _) as [| e' l] eqn:E; [discriminate |].
  intros [= <-].
  assert (Hin : In e' (List.filter (fun e => (he_hash e =? hash) && is_used (he_entry_type e))
                   (map (get_slot hm) cands))) by (rewrite E; left; reflexivity).
  apply filter_In in Hin as [Hm Hp]. apply andb_prop in Hp as [Hh Hu].
  apply Z.eqb_eq in Hh. split; [exact Hh |]. split; [exact Hu |].
  apply in_map_iff in Hm as (i & Hi & Hc). exists i. split; [exact Hc | exact Hi].
Qed.

Lemma hm_get_all_unused (hm : HashMap Move) (hash : Z) :
  (forall i, is_used (he_entry_type (get_slot hm i)) = false) -> hm_get hm hash = None.
Proof.
  intros H. rewrite hm_get_cands.
  generalize (get_slot_idx_for_hash (hm_capacity hm) hash). intros cands.
  rewrite filter_all_false; [reflexivity |].
  intros x Hx. apply in_map_iff in Hx as (i & <- & _). rewrite H. apply andb_false_r.
Qed.

(** X16: [HashMap::new(megabytes)] with [megabytes > 0] (its assertion)
    has [65536] slots per megabyte, all of them, with a count of zero, and
    [get] finds nothing in it. *)
Theorem hm_new_empty (megabytes : nat) (hash : Z) :
  (0 < megabytes)%nat ->
  hm_get (hm_new (Move:=Move) megabytes) hash = None /\
  hm_count (hm_new (Move:=Move) megabytes) = 0%nat /\
  hm_capacity (hm_new (Move:=Move) megabytes) = Z.of_nat megabytes * 65536 /\
  length (hm_slots (hm_new (Move:=Move) megabytes)) =
    Z.to_nat (hm_capacity (hm_new (Move:=Move) megabytes)).
Proof.
  intros Hm. split.
  - apply hm_get_all_unused. intros i. unfold get_slot, hm_new, hm_empty. cbn [hm_slots].
    destruct (repeat zero_entry _ !! Z.to_nat i) as [e |] eqn:E; [| reflexivity].
    apply list_elem_of_lookup_2, list_elem_of_In, repeat_spec in E. subst e. reflexivity.
  - unfold hm_new, hm_empty. cbn [hm_count hm_capacity hm_slots].
    rewrite repeat_length, Nat2Z.id. split; [reflexivity |]. split; [| reflexivity].
    rewrite Nat2Z.inj_div, !Nat2Z.inj_mul.
    change (Z.of_nat 1024) with 1024. change (Z.of_nat 16) with 16.
    replace (Z.of_nat megabytes * 1024 * 1024) with (Z.of_nat megabytes * 65536 * 16) by ring.
    apply Z.div_mul. lia.
Qed.

(** X17: [new_generation] changes no lookup result, no slot and not the
    capacity, resets [count] to zero, and ages every slot by one
    generation (modulo 256). *)
Theorem new_generation_effect (hm : HashMap Move) (hash : Z) :
  hm_get (new_generation hm) hash = hm_get hm hash /\
  hm_slots (new_generation hm) = hm_slots hm /\
  hm_capacity (new_generation hm) = hm_capacity hm /\
  hm_count (new_generation hm) = 0%nat /\
  (forall i, slot_age (new_generation hm) i = wrapping_add_u8 (slot_age hm i) 1).
Proof.
  split; [rewrite !hm_get_cands; reflexivity |].
  split; [reflexivity |]. split; [reflexivity |]. split; [reflexivity |].
  intros i. unfold slot_age, get_slot, new_generation. cbn [hm_slots hm_generation].
  unfold wrapping_add_u8, wrapping_sub_u8.
  rewrite Zplus_mod_idemp_l, Zminus_mod_idemp_l. f_equal. ring.
Qed.
End HashProofs.

Lemma hm_insert_get_witness :
  (4 <= hm_capacity (hm_empty (Move:=unit) 8) /\ 0 <= 12345 < 2 ^ 64 /\
   length (hm_slots (hm_empty (Move:=unit) 8)) = Z.to_nat (hm_capacity (hm_empty (Move:=unit) 8)) /\
   is_used (he_entry_type (with_contents (Move:=unit) 12345 None (Exact (BS 7)) 3)) = true) /\
  hm_get (hm_insert (hm_empty 8) 12345 (with_contents 12345 None (Exact (BS 7)) 3)) 12345 =
    Some (stamp (with_contents (Move:=unit) 12345 None (Exact (BS 7)) 3) 12345
            (hm_generation (hm_empty (Move:=unit) 8))).
Proof.
  assert (H1 : 4 <= hm_capacity (hm_empty (Move:=unit) 8)) by (cbn; lia).
  assert (H2 : 0 <= 12345 < 2 ^ 64) by lia.
  assert (H3 : length (hm_slots (hm_empty (Move:=unit) 8)) =
               Z.to_nat (hm_capacity (hm_empty (Move:=unit) 8))) by reflexivity.
  assert (H4 : is_used (he_entry_type (with_contents (Move:=unit) 12345 None (Exact (BS 7)) 3)) = true)
    by reflexivity.
  split; [exact (conj H1 (conj H2 (conj H3 H4))) |].
  exact (hm_insert_get unit (hm_empty 8) 12345 _ H1 H2 H3 H4).
Defined.

Lemma insert_with_contents_probe_witness :
  (4 <= hm_capacity (hm_empty (Move:=unit) 8) /\ 0 <= 12345 < 2 ^ 64 /\
   length (hm_slots (hm_empty (Move:=unit) 8)) = Z.to_nat (hm_capacity (hm_empty (Move:=unit) 8))) /\
  exists e, hm_get (hm_insert (hm_empty 8) 12345 (with_contents 12345 (Some tt) (LowerBound (BS 7)) 3)) 12345 = Some e /\
    entry_score e = LowerBound (BS 7) /\ he_best_move e = Some tt /\ he_depth e = 3%nat.
Proof.
  assert (H1 : 4 <= hm_capacity (hm_empty (Move:=unit) 8)) by (cbn; lia).
  assert (H2 : 0 <= 12345 < 2 ^ 64) by lia.
  assert (H3 : length (hm_slots (hm_empty (Move:=unit) 8)) =
               Z.to_nat (hm_capacity (hm_empty (Move:=unit) 8))) by reflexivity.
  split; [exact (conj H1 (conj H2 H3)) |].
  exact (insert_with_contents_probe unit (hm_empty 8) 12345 (Some tt) (LowerBound (BS 7)) 3 H1 H2 H3).
Defined.

Lemma hm_insert_frame_witness :
  (4 <= hm_capacity (hm_empty (Move:=unit) 8) /\ 0 <= 12345 < 2 ^ 64) /\
  hm_capacity (hm_insert (hm_empty (Move:=unit) 8) 12345 (with_contents 12345 None (Exact (BS 7)) 3)) =
    hm_capacity (hm_empty (Move:=unit) 8).
Proof.
  assert (H1 : 4 <= hm_capacity (hm_empty (Move:=unit) 8)) by (cbn; lia).
  assert (H2 : 0 <= 12345 < 2 ^ 64) by lia.
  split; [split; assumption |].
  exact (proj1 (proj2 (hm_insert_frame unit (hm_empty 8) 12345
    (with_contents 12345 None (Exact (BS 7)) 3) H1 H2))).
Defined.

Lemma hm_get_sound_witness :
  hm_get (hm_insert (hm_empty (Move:=unit) 8) 12345 (with_contents 12345 None (Exact (BS 7)) 3)) 12345 =
    Some (stamp (with_contents (Move:=unit) 12345 None (Exact (BS 7)) 3) 12345 0) /\
  he_hash (stamp (with_contents (Move:=unit) 12345 None (Exact (BS 7)) 3) 12345 0) = 12345.
Proof.
  assert (H : hm_get (hm_insert (hm_empty (Move:=unit) 8) 12345 (with_contents 12345 None (Exact (BS 7)) 3)) 12345 =
    Some (stamp (with_contents (Move:=unit) 12345 None (Exact (BS 7)) 3) 12345 0))
    by (vm_compute; reflexivity).
  split; [exact H | exact (proj1 (hm_get_sound unit _ 12345 _ H))].
Defined.

Lemma hm_new_empty_witness :
  (0 < 1)%nat /\ hm_get (hm_new (Move:=unit) 1) 12345 = None.
Proof. split; [lia | exact (proj1 (hm_new_empty unit 1 12345 ltac:(lia)))]. Defined.

(** ** search.rs *)

Section PvFollow.
Variable Move : Type.
Variable Board : Type.
Variable get_hash : Board -> Z.
Variable make_move_new : Board -> Move -> Board.

Lemma pv_loop_follows (hm : HashMap Move) (fuel nbr : nat) (position : Board) :
  pv_follows Move Board get_hash make_move_new hm position
    (pv_loop Move Board get_hash make_move_new hm fuel nbr position).
Proof.
  revert nbr position. induction fuel as [| fuel IH]; intros nbr position; cbn [pv_loop];
    [exact I |].
  destruct (hm_get hm (get_hash position)) as [e |] eqn:He; [| exact I].
  destruct (he_best_move e) as [bm |] eqn:Hb; [| exact I].
  destruct (DEPTH_MAX <? S nbr)%nat; cbn [pv_follows];
    (split; [exists e; split; assumption |]); [exact I | apply IH].
Qed.

(** X18: every move [trace_pv] prints is the best move the table holds for
    the position reached by playing the moves printed before it. *)
Theorem trace_pv_follows_table (hm : HashMap Move) (position : Board) :
  pv_follows Move Board get_hash make_move_new hm position
    (trace_pv Move Board get_hash make_move_new hm position).
Proof. apply pv_loop_follows. Qed.
End PvFollow.

Section SearchMore.
Variable Move : Type.
Context `{EqDecision Move}.
Variable Board : Type.
Variable get_hash : Board -> Z.
Variable legal_moves : Board -> list Move.
Variable make_move_new : Board -> Move -> Board.
Variable in_check : Board -> bool.
Variable color_combined : Board -> Color -> Z.
Variable pieces : Board -> Piece -> Z.
Variable stop_now_at : nat -> bool.
Variable elapsed_at : nat -> Z.

Local Abbreviation search_node :=
  (alphabeta_search Move Board get_hash legal_moves make_move_new in_check
     color_combined pieces stop_now_at elapsed_at).

(** X19: a call of [alphabeta_search] at depth 0 never writes the hash
    table, whatever the bounds, the table and the stop conditions. *)
Theorem alphabeta_depth0_keeps_table (position : Board) (alpha beta : BoardScore)
    (st : Searcher Move) :
  hashmap (snd (search_node 0 position alpha beta st)) = hashmap st.
Proof.
  cbn [alphabeta_search]. unfold should_stop_search. cbn iota.
  destruct (bs_le BEST_SCORE alpha); [reflexivity |].
  destruct (bs_eqb beta WORST_SCORE); [reflexivity |].
  destruct (probe_table _ _ _ _ _); [reflexivity |].
  destruct (negb _); [| reflexivity]. unfold leaf_evaluation.
  destruct (0 <? _)%nat; [| destruct (in_check position)]; reflexivity.
Qed.

(** X20: when the stop condition holds on entry (and the bounds are not
    overdetermined), [alphabeta_search] at any depth returns the stored
    score of the position's table entry, or [LowerBound WORST_SCORE] if
    there is none, and leaves the table unchanged. *)
Theorem alphabeta_when_stopping (depth : nat) (position : Board) (alpha beta : BoardScore)
    (st : Searcher Move) :
  bs_le BEST_SCORE alpha = false -> bs_eqb beta WORST_SCORE = false ->
  stop_condition_at stop_now_at elapsed_at (stop_conditions st) (polls st) = true ->
  fst (search_node depth position alpha beta st) =
    match hm_get (hashmap st) (get_hash position) with
    | Some e => entry_score e
    | None => LowerBound WORST_SCORE
    end /\
  hashmap (snd (search_node depth position alpha beta st)) = hashmap st.
Proof.
  intros Ha Hb Hs. destruct depth as [| d]; cbn [alphabeta_search];
    unfold should_stop_search; cbn [incr_nodes polls stop_conditions hashmap incr_polls];
    rewrite Ha, Hb, Hs; cbn iota;
    destruct (hm_get (hashmap st) (get_hash position)) as [e |]; cbn [probe_table orb];
    try (destruct (entry_score e); split; reflexivity);
    split; reflexivity.
Qed.

(** X21: at depth 0, without a stop and without a usable table entry,
    [alphabeta_search] returns [Exact] of the leaf evaluation: the material
    evaluation if there is a legal move, [MATED] in check without one,
    [EVEN] otherwise; it counts two nodes (the node and the leaf) and
    leaves the table unchanged. *)
Theorem alphabeta_leaf (position : Board) (alpha beta : BoardScore) (st : Searcher Move) :
  bs_le BEST_SCORE alpha = false -> bs_eqb beta WORST_SCORE = false ->
  stop_condition_at stop_now_at elapsed_at (stop_conditions st) (polls st) = false ->
  probe_table false 0 alpha beta (hm_get (hashmap st) (get_hash position)) = None ->
  fst (search_node 0 position alpha beta st) =
    Exact (if (0 <? length (legal_moves position))%nat
           then evaluate_piece_values Board color_combined pieces position
           else if in_check position then MATED else EVEN) /\
  nodes (snd (search_node 0 position alpha beta st)) = S (S (nodes st)) /\
  hashmap (snd (search_node 0 position alpha beta st)) = hashmap st.
Proof.
  intros Ha Hb Hs Hp. cbn [alphabeta_search].
  unfold should_stop_search. cbn [incr_nodes polls stop_conditions hashmap incr_polls].
  rewrite Ha, Hb, Hs. cbn iota. rewrite Hp. cbn [negb].
  unfold leaf_evaluation, static_evaluation.
  destruct (0 <? _)%nat; [| destruct (in_check position)]; repeat split.
Qed.

Lemma deepening_depths (remaining depth : nat) (position : Board) (st : Searcher Move) :
  exists k,
    map (info_depth Move) (snd (deepening Move Board get_hash legal_moves make_move_new in_check
                           color_combined pieces stop_now_at elapsed_at
                           remaining depth position st)) = seq depth k /\
    (k <= remaining)%nat /\
    (k = 0 \/ depth + k <= S (sc_depth (stop_conditions st)))%nat.
Proof.
  revert depth st. induction remaining as [| r IH]; intros depth st;
    [exists 0%nat; split; [reflexivity | lia] |].
  cbn [deepening]. unfold should_stop_search. cbn iota.
  destruct (stop_condition_at _ _ _ _); [exists 0%nat; split; [reflexivity | lia] |].
  cbn [incr_polls stop_conditions].
  destruct (sc_depth (stop_conditions st) <? depth)%nat eqn:Ed;
    [exists 0%nat; split; [reflexivity | lia] |].
  apply Nat.ltb_ge in Ed.
  pose proof (alphabeta_sc Move Board get_hash legal_moves make_move_new in_check
                color_combined pieces stop_now_at elapsed_at depth position WORST_SCORE BEST_SCORE
                (incr_polls st)) as Ha.
  destruct (alphabeta_search _ _ _ _ _ _ _ _ _ _ _ _ _ _ _) as [score st1]. cbn [snd] in Ha.
  match goal with |- context [deepening ?M ?B ?g ?l ?mk ?c ?cc ?pc ?sn ?el r ?dp ?p st1] =>
    destruct (IH dp st1) as (k & Hk & Hkr & Hkb);
    destruct (deepening M B g l mk c cc pc sn el r dp p st1) as [st2 lines] end.
  cbn [snd map info_depth] in *. rewrite Hk, Ha in *. cbn [incr_polls stop_conditions] in Hkb.
  exists (S k). split; [reflexivity |]. split; [lia |]. right. lia.
Qed.

(** X22: the [info] lines [search] prints report the depths 1, 2, ..., k in
    order, with no gap and no repetition, and k is at most 255 and at most
    the requested depth. *)
Theorem search_info_depths (st : Searcher Move) (position : Board) :
  exists k,
    map (info_depth Move) (snd (fst (search Move Board get_hash legal_moves make_move_new in_check
                                color_combined pieces stop_now_at elapsed_at st position)))
      = seq 1 k /\
    (k <= DEPTH_MAX)%nat /\ (k <= sc_depth (stop_conditions st))%nat.
Proof.
  unfold search.
  destruct (deepening_depths DEPTH_MAX 1 position (search_entry Move st)) as (k & Hk & H1 & H2).
  destruct (deepening _ _ _ _ _ _ _ _ _ _ _ _ _ _) as [st' lines].
  cbn [snd fst] in *. exists k. split; [exact Hk |]. split; [exact H1 |].
  cbn [search_entry stop_conditions] in H2. lia.
Qed.
End SearchMore.

Lemma alphabeta_when_stopping_witness :
  (bs_le BEST_SCORE WORST_SCORE = false /\ bs_eqb BEST_SCORE WORST_SCORE = false /\
   stop_condition_at (fun _ => true) (fun _ => 0) (stop_conditions fresh_searcher)
     (polls fresh_searcher) = true) /\
  fst (stopped_search 1 5 WORST_SCORE BEST_SCORE fresh_searcher) =
    match hm_get (hashmap fresh_searcher) 5 with
    | Some e => entry_score e
    | None => LowerBound WORST_SCORE
    end.
Proof.
  assert (H1 : bs_le BEST_SCORE WORST_SCORE = false) by reflexivity.
  assert (H2 : bs_eqb BEST_SCORE WORST_SCORE = false) by reflexivity.
  assert (H3 : stop_condition_at (fun _ => true) (fun _ => 0) (stop_conditions fresh_searcher)
                 (polls fresh_searcher) = true) by reflexivity.
  split; [exact (conj H1 (conj H2 H3)) |].
  exact (proj1 (alphabeta_when_stopping unit Z (fun b => b) (fun _ => []) (fun b _ => b)
    (fun _ => true) (fun _ _ => 0) (fun _ _ => 0) (fun _ => true) (fun _ => 0)
    1 5 WORST_SCORE BEST_SCORE fresh_searcher H1 H2 H3)).
Defined.

Lemma alphabeta_leaf_witness :
  (bs_le BEST_SCORE WORST_SCORE = false /\ bs_eqb BEST_SCORE WORST_SCORE = false /\
   stop_condition_at (fun _ => false) (fun _ => 0) (stop_conditions fresh_searcher)
     (polls fresh_searcher) = false /\
   probe_table false 0 WORST_SCORE BEST_SCORE (hm_get (hashmap fresh_searcher) 5) = None) /\
  fst (mated_search 0 5 WORST_SCORE BEST_SCORE fresh_searcher) = Exact MATED.
Proof.
  assert (H1 : bs_le BEST_SCORE WORST_SCORE = false) by reflexivity.
  assert (H2 : bs_eqb BEST_SCORE WORST_SCORE = false) by reflexivity.
  assert (H3 : stop_condition_at (fun _ => false) (fun _ => 0) (stop_conditions fresh_searcher)
                 (polls fresh_searcher) = false) by reflexivity.
  assert (H4 : probe_table false 0 WORST_SCORE BEST_SCORE (hm_get (hashmap fresh_searcher) 5) = None)
    by (vm_compute; reflexivity).
  split; [exact (conj H1 (conj H2 (conj H3 H4))) |].
  exact (proj1 (alphabeta_leaf unit Z (fun b => b) (fun _ => []) (fun b _ => b)
    (fun _ => true) (fun _ _ => 0) (fun _ _ => 0) (fun _ => false) (fun _ => 0)
    5 WORST_SCORE BEST_SCORE fresh_searcher H1 H2 H3 H4)).
Defined.

(** ** uci.rs *)

Lemma parse_digits_app (bits acc : Z) (s1 s2 : string) :
  parse_digits bits acc (s1 ++ s2) =
  match parse_digits bits acc s1 with Some a => parse_digits bits a s2 | None => None end.
Proof.
  revert acc. induction s1 as [| c s1 IH]; intros acc; [reflexivity |]. cbn [append parse_digits].
  destruct (_ && _); [| reflexivity]. destruct (_ <? _); [apply IH | reflexivity].
Qed.

Lemma decimal_aux_app (f : nat) (n : Z) (s t : string) :
  decimal_aux f n (s ++ t) = (decimal_aux f n s ++ t)%string.
Proof.
  revert n s. induction f as [| f IH]; intros n s; [reflexivity |]. cbn [decimal_aux].
  destruct (n <? 10); [reflexivity |].
  change (String (digit_char (n mod 10)) (s ++ t)) with (String (digit_char (n mod 10)) s ++ t)%string.
  apply IH.
Qed.

Lemma digit_char_value (d : Z) :
  0 <= d <= 9 -> Z.of_nat (nat_of_ascii (digit_char d)) - 48 = d.
Proof.
  intros H. unfold digit_char. rewrite nat_ascii_embedding by lia. lia.
Qed.

Lemma parse_decimal (bits : Z) (f : nat) (n : Z) :
  0 <= bits -> 0 <= n < 10 ^ Z.of_nat (S f) ->
  parse_digits bits 0 (decimal_aux (S f) n "") = if n <? 2 ^ bits then Some n else None.
Proof.
  intros Hb. revert n. induction f as [| f IH]; intros n Hn.
  - cbn [decimal_aux]. change (10 ^ Z.of_nat 1) with 10 in Hn.
    rewrite (proj2 (Z.ltb_lt n 10)) by lia. cbn [parse_digits].
    rewrite digit_char_value by (pose proof (Z.mod_pos_bound n 10); lia).
    rewrite Z.mod_small by lia.
    rewrite (proj2 (Z.leb_le 0 n)), (proj2 (Z.leb_le n 9)) by lia. cbn [andb].
    replace (0 * 10 + n) with n by ring. destruct (n <? 2 ^ bits); reflexivity.
  - change (decimal_aux (S (S f)) n "") with
      (if n <? 10 then String (digit_char (n mod 10)) ""
       else decimal_aux (S f) (n / 10) (String (digit_char (n mod 10)) "")).
    destruct (Z.ltb_spec n 10) as [Hlt | Hge].
    + cbn [parse_digits].
      rewrite digit_char_value by (pose proof (Z.mod_pos_bound n 10); lia).
      rewrite Z.mod_small by lia.
      rewrite (proj2 (Z.leb_le 0 n)), (proj2 (Z.leb_le n 9)) by lia. cbn [andb].
      replace (0 * 10 + n) with n by ring. destruct (n <? 2 ^ bits); reflexivity.
    + change (String (digit_char (n mod 10)) EmptyString)
        with ("" ++ String (digit_char (n mod 10)) "")%string.
      rewrite decimal_aux_app, parse_digits_app.
      assert (Hq : 0 <= n / 10 < 10 ^ Z.of_nat (S f)).
      { split; [apply Z.div_pos; lia |]. apply Z.div_lt_upper_bound; [lia |].
        rewrite (Nat2Z.inj_succ (S f)), Z.pow_succ_r in Hn by lia. lia. }
      rewrite (IH (n / 10) Hq).
      pose proof (Z.mod_pos_bound n 10) as Hm. pose proof (Z.div_mod n 10 ltac:(lia)) as Hd.
      destruct (Z.ltb_spec (n / 10) (2 ^ bits)) as [Hq2 | Hq2].
      * cbn [parse_digits].
        rewrite digit_char_value by lia.
        rewrite (proj2 (Z.leb_le 0 (n mod 10))), (proj2 (Z.leb_le (n mod 10) 9)) by lia. cbn [andb].
        replace (n / 10 * 10 + n mod 10) with n by lia.
        destruct (n <? 2 ^ bits); reflexivity.
      * rewrite (proj2 (Z.ltb_ge n (2 ^ bits))); [reflexivity |].
        assert (n / 10 <= n) by (apply Z.div_le_upper_bound; lia). lia.
Qed.

Lemma decimal_head (f : nat) (n : Z) :
  0 <= n -> exists c rest, decimal_aux (S f) n "" = String c rest /\
    (48 <= nat_of_ascii c <= 57)%nat.
Proof.
  revert n. induction f as [| f IH]; intros n Hn.
  - cbn [decimal_aux]. destruct (n <? 10); eexists _, _; (split; [reflexivity |]);
    unfold digit_char; pose proof (Z.mod_pos_bound n 10);
    rewrite nat_ascii_embedding by lia; lia.
  - change (decimal_aux (S (S f)) n "") with
      (if n <? 10 then String (digit_char (n mod 10)) ""
       else decimal_aux (S f) (n / 10) (String (digit_char (n mod 10)) "")).
    destruct (n <? 10).
    + eexists _, _; split; [reflexivity |]. unfold digit_char. pose proof (Z.mod_pos_bound n 10).
      rewrite nat_ascii_embedding by lia; lia.
    + change (String (digit_char (n mod 10)) EmptyString)
        with ("" ++ String (digit_char (n mod 10)) "")%string.
      rewrite decimal_aux_app.
      destruct (IH (n / 10) ltac:(apply Z.div_pos; lia)) as (c & rest & -> & Hc).
      eexists _, _. split; [reflexivity | exact Hc].
Qed.

Lemma from_str_decimal (bits n : Z) :
  0 <= bits -> 0 <= n < 10 ^ 20 ->
  from_str_unsigned bits (decimal n) = if n <? 2 ^ bits then Some n else None.
Proof.
  intros Hb Hn. unfold decimal.
  destruct (decimal_head 19 n ltac:(lia)) as (c & rest & E & Hc).
  rewrite <- (parse_decimal bits 19 n Hb ltac:(exact Hn)). rewrite E.
  unfold from_str_unsigned.
  destruct (Ascii.eqb_spec c "+") as [-> | N1]; [vm_compute in Hc; lia |].
  destruct (Ascii.eqb_spec c "-") as [-> | N2]; [vm_compute in Hc; lia |].
  reflexivity.
Qed.

(** X23: [go depth n] sets the search depth to [n] when [n] fits in a
    [u8] and is an error otherwise; [go movetime t] sets the move time to
    [t] when [t] fits in a [u32] and is an error otherwise; the other stop
    conditions keep the values of [StopConditions::new]. *)
Theorem command_go_values (d t : Z) :
  0 <= d < 10 ^ 20 -> 0 <= t < 10 ^ 20 ->
  command_go ["depth"; decimal d]%string =
    (if d <? 256 then Some {| is_running := false; stop_now := false;
                              sc_depth := Z.to_nat d; movetime := 0 |}
     else None) /\
  command_go ["movetime"; decimal t]%string =
    (if t <? 2 ^ 32 then Some {| is_running := false; stop_now := false;
                                 sc_depth := 255; movetime := t |}
     else None).
Proof.
  intros Hd Ht. unfold command_go. split; cbn [go_loop].
  - rewrite String.eqb_refl, from_str_decimal by lia.
    change (2 ^ 8) with 256. destruct (d <? 256); reflexivity.
  - replace (String.eqb "movetime" "depth") with false by reflexivity.
    rewrite String.eqb_refl, from_str_decimal by lia.
    destruct (t <? 2 ^ 32); reflexivity.
Qed.

Lemma parse_digits_range (bits acc : Z) (s : string) (v : Z) :
  0 <= acc < 2 ^ bits -> parse_digits bits acc s = Some v -> 0 <= v < 2 ^ bits.
Proof.
  revert acc. induction s as [| c s IH]; intros acc Ha; cbn [parse_digits].
  - intros [= <-]. exact Ha.
  - destruct (Z.leb_spec 0 (Z.of_nat (nat_of_ascii c) - 48)); cbn [andb]; [| discriminate].
    destruct (Z.leb_spec (Z.of_nat (nat_of_ascii c) - 48) 9); cbn [andb]; [| discriminate].
    destruct (Z.ltb_spec (acc * 10 + (Z.of_nat (nat_of_ascii c) - 48)) (2 ^ bits)); [| discriminate].
    apply IH. lia.
Qed.

Lemma from_str_range (bits : Z) (s : string) (v : Z) :
  0 <= bits -> from_str_unsigned bits s = Some v -> 0 <= v < 2 ^ bits.
Proof.
  intros Hb. assert (H0 : 0 <= 0 < 2 ^ bits) by (split; [lia | apply Z.pow_pos_nonneg; lia]).
  unfold from_str_unsigned. destruct s as [| c rest]; [discriminate |].
  destruct (_ && _); [discriminate |].
  destruct (Ascii.eqb c "+"); apply parse_digits_range; exact H0.
Qed.

Lemma go_loop_ok (sc : StopConditions) (ws : list string) (sc' : StopConditions) :
  go_ok sc -> go_loop sc ws = Some sc' -> go_ok sc'.
Proof.
  remember (length ws) as n eqn:Hn. assert (Hle : (length ws <= n)%nat) by lia. clear Hn.
  revert sc ws Hle. induction n as [| n IH]; intros sc ws Hle Hok.
  { destruct ws; [cbn; intros [= <-]; exact Hok | cbn in Hle; lia]. }
  destruct ws as [| w ws]; cbn [go_loop]; [intros [= <-]; exact Hok |].
  cbn [length] in Hle.
  destruct (String.eqb w "depth").
  - destruct ws as [| v ws'];
    [destruct (from_str_unsigned 8 "") as [d |] eqn:E; [intros [= <-] | discriminate]
    | destruct (from_str_unsigned 8 v) as [d |] eqn:E; [| discriminate]];
    apply from_str_range in E; try lia;
    [| apply IH; [cbn in Hle; lia |]];
    destruct Hok as (H1 & H2 & H3 & H4); unfold go_ok, with_depth; cbn;
    change (2 ^ 8) with 256 in E; repeat split; auto; lia.
  - destruct (String.eqb w "movetime"); [| discriminate].
    destruct ws as [| v ws'];
    [destruct (from_str_unsigned 32 "") as [t |] eqn:E; [intros [= <-] | discriminate]
    | destruct (from_str_unsigned 32 v) as [t |] eqn:E; [| discriminate]];
    apply from_str_range in E; try lia;
    [| apply IH; [cbn in Hle; lia |]];
    destruct Hok as (H1 & H2 & H3 & H4); unfold go_ok, with_movetime; cbn;
    repeat split; auto; lia.
Qed.

(** X24: every stop conditions [command_go] produces have a depth of at
    most 255, a move time below [2^32], and both flags [is_running] and
    [stop_now] false. *)
Theorem command_go_result (ws : list string) (sc : StopConditions) :
  command_go ws = Some sc ->
  (sc_depth sc <= 255)%nat /\ 0 <= movetime sc < 2 ^ 32 /\
  is_running sc = false /\ stop_now sc = false.
Proof.
  intros H. apply (go_loop_ok StopConditions_new ws sc); [| exact H].
  unfold go_ok; cbn. repeat split; lia.
Qed.

(** The loop of [command_go] goes on from where a fully read prefix of the
    arguments leaves it. *)
Lemma go_loop_app (sc sc' : StopConditions) (pre ws : list string) :
  go_loop sc pre = Some sc' -> go_loop sc (pre ++ ws) = go_loop sc' ws.
Proof.
  remember (length pre) as n eqn:Hn. assert (Hle : (length pre <= n)%nat) by lia. clear Hn.
  revert sc pre Hle. induction n as [| n IH]; intros sc pre Hle.
  { destruct pre; [cbn; intros [= <-]; reflexivity | cbn in Hle; lia]. }
  destruct pre as [| w pre]; [cbn; intros [= <-]; reflexivity |].
  cbn [length] in Hle. cbn [app go_loop].
  destruct (String.eqb w "depth").
  - destruct pre as [| v pre']; [discriminate |]. cbn [app].
    destruct (from_str_unsigned 8 v); [| discriminate].
    apply IH. cbn in Hle. lia.
  - destruct (String.eqb w "movetime"); [| discriminate].
    destruct pre as [| v pre']; [discriminate |]. cbn [app].
    destruct (from_str_unsigned 32 v); [| discriminate].
    apply IH. cbn in Hle. lia.
Qed.

(** X25: [go] with no arguments gives [StopConditions::new]. After any
    arguments read without error, [depth] or [movetime] without a value, a
    value that does not parse as a [u8] (for [depth]) or a [u32] (for
    [movetime]), and any word other than these two, make [command_go]
    print an error and start no search, whatever follows. *)
Theorem command_go_errors (pre : list string) (sc : StopConditions) :
  command_go pre = Some sc ->
  command_go [] = Some StopConditions_new /\
  command_go (pre ++ ["depth"%string]) = None /\
  command_go (pre ++ ["movetime"%string]) = None /\
  (forall v rest, from_str_unsigned 8 v = None ->
     command_go (pre ++ "depth"%string :: v :: rest) = None) /\
  (forall v rest, from_str_unsigned 32 v = None ->
     command_go (pre ++ "movetime"%string :: v :: rest) = None) /\
  (forall w rest, w <> "depth"%string -> w <> "movetime"%string ->
     command_go (pre ++ w :: rest) = None).
Proof.
  intros H. unfold command_go in *.
  pose proof (fun ws => go_loop_app _ _ _ ws H) as Happ.
  split; [reflexivity |].
  split; [rewrite Happ; reflexivity |]. split; [rewrite Happ; reflexivity |].
  split; [intros v rest Hv; rewrite Happ; cbn [go_loop]; rewrite String.eqb_refl, Hv; reflexivity |].
  split; [intros v rest Hv; rewrite Happ; cbn [go_loop];
    replace (String.eqb "movetime" "depth") with false by reflexivity;
    rewrite String.eqb_refl, Hv; reflexivity |].
  intros w rest N1 N2. rewrite Happ. cbn [go_loop].
  destruct (String.eqb_spec w "depth"); [contradiction |].
  destruct (String.eqb_spec w "movetime"); [contradiction | reflexivity].
Qed.

Lemma command_go_errors_witness :
  command_go ["depth"; "12"]%string =
    Some {| is_running := false; stop_now := false; sc_depth := 12; movetime := 0 |} /\
  command_go (["depth"; "12"]%string ++ ["foo"%string]) = None.
Proof.
  assert (H : command_go ["depth"; "12"]%string =
    Some {| is_running := false; stop_now := false; sc_depth := 12; movetime := 0 |})
    by (vm_compute; reflexivity).
  split; [exact H |].
  apply (proj2 (proj2 (proj2 (proj2 (proj2 (command_go_errors _ _ H)))))); discriminate.
Defined.

Section UciPositionProofs.
Variable Move : Type.
Context `{EqDecision Move}.
Variable Board : Type.
Variable parse_move : string -> option Move.
Variable legal_moves : Board -> list Move.
Variable make_move_new : Board -> Move -> Board.

Lemma find_eq_some (m : Move) (l : list Move) :
  (exists x, find (fun legal_move => bool_decide (m = legal_move)) l = Some x) <-> In m l.
Proof.
  split.
  - intros [x Hx]. apply find_some in Hx as [Hx Heq].
    apply bool_decide_eq_true in Heq. subst. exact Hx.
  - intros Hin. destruct (find _ l) as [x |] eqn:E; [exists x; reflexivity |].
    pose proof (find_none _ _ E m Hin) as H. cbn beta in H.
    rewrite bool_decide_eq_false in H. exfalso. apply H. reflexivity.
Qed.

Lemma apply_moves_spec (rp : Board) (ws : list string) (p : Board) :
  apply_moves Move Board parse_move legal_moves make_move_new rp ws = Some p <->
  exists ms, Forall2 (fun w m => parse_move w = Some m) ws ms /\
    legal_sequence Move Board legal_moves make_move_new rp ms /\
    p = fold_left make_move_new ms rp.
Proof.
  revert rp. induction ws as [| w ws IH]; intros rp; cbn [apply_moves].
  - split.
    + intros [= <-]. exists []. split; [constructor | split; [exact I | reflexivity]].
    + intros (ms & Hf & _ & ->). inversion Hf. reflexivity.
  - destruct (parse_move w) as [m |] eqn:Hp.
    + destruct (find (fun legal_move => bool_decide (m = legal_move)) (legal_moves rp)) as [x |] eqn:Hfind.
      * rewrite IH. split.
        -- intros (ms & Hf & Hl & ->). exists (m :: ms).
           split; [constructor; assumption |]. split; [| reflexivity].
           split; [apply find_eq_some; exists x; exact Hfind | exact Hl].
        -- intros (ms & Hf & Hl & ->). inversion Hf as [| w' m' ws' ms' Hw Hf']; subst.
           rewrite Hp in Hw. injection Hw as <-.
           exists ms'. split; [exact Hf' |]. split; [exact (proj2 Hl) | reflexivity].
      * split; [discriminate |].
        intros (ms & Hf & Hl & _). inversion Hf as [| w' m' ws' ms' Hw Hf']; subst.
        rewrite Hp in Hw. injection Hw as <-.
        destruct Hl as [Hin _]. apply find_eq_some in Hin as [x Hx]. congruence.
    + split; [discriminate |].
      intros (ms & Hf & _). inversion Hf as [| w' m' ws' ms' Hw Hf']; subst. congruence.
Qed.

(** X26: the [moves] list of [position] is applied all or nothing: if the
    words parse to moves that are legal in turn, the new position is the
    result of playing them all; if no parse of the words is a legal
    sequence, the engine keeps its previous position. With no word after
    the board the position is the board itself, and any word other than
    [moves] there keeps the previous position. *)
Theorem command_position_all_or_nothing (self_position rp : Board) (ws : list string) :
  (forall ms, Forall2 (fun w m => parse_move w = Some m) ws ms ->
     legal_sequence Move Board legal_moves make_move_new rp ms ->
     command_position_finish Move Board parse_move legal_moves make_move_new
       self_position rp ("moves" :: ws)%string = fold_left make_move_new ms rp) /\
  ((forall ms, Forall2 (fun w m => parse_move w = Some m) ws ms ->
     ~ legal_sequence Move Board legal_moves make_move_new rp ms) ->
     command_position_finish Move Board parse_move legal_moves make_move_new
       self_position rp ("moves" :: ws)%string = self_position) /\
  command_position_finish Move Board parse_move legal_moves make_move_new self_position rp [] = rp /\
  (forall w rest, w <> "moves"%string ->
     command_position_finish Move Board parse_move legal_moves make_move_new
       self_position rp (w :: rest) = self_position).
Proof.
  unfold command_position_finish, position_moves. rewrite String.eqb_refl.
  split; [| split; [| split]].
  - intros ms Hf Hl.
    assert (H : apply_moves Move Board parse_move legal_moves make_move_new rp ws =
                Some (fold_left make_move_new ms rp))
      by (apply apply_moves_spec; exists ms; auto).
    rewrite H. reflexivity.
  - intros Hno. destruct (apply_moves _ _ _ _ _ rp ws) as [p |] eqn:E; [| reflexivity].
    apply apply_moves_spec in E as (ms & Hf & Hl & _). exfalso. exact (Hno ms Hf Hl).
  - reflexivity.
  - intros w rest Hw. destruct (String.eqb_spec w "moves"); [contradiction | reflexivity].
Qed.
End UciPositionProofs.

Lemma command_go_values_witness :
  (0 <= 12 < 10 ^ 20 /\ 0 <= 500 < 10 ^ 20) /\
  command_go ["movetime"; decimal 500]%string =
    (if 500 <? 2 ^ 32 then Some {| is_running := false; stop_now := false;
                                   sc_depth := 255; movetime := 500 |}
     else None).
Proof.
  assert (H1 : 0 <= 12 < 10 ^ 20) by lia. assert (H2 : 0 <= 500 < 10 ^ 20) by lia.
  split; [exact (conj H1 H2) | exact (proj2 (command_go_values 12 500 H1 H2))].
Defined.

Lemma command_go_result_witness :
  command_go ["depth"; "12"; "movetime"; "1000"]%string =
    Some {| is_running := false; stop_now := false; sc_depth := 12; movetime := 1000 |} /\
  (sc_depth {| is_running := false; stop_now := false; sc_depth := 12; movetime := 1000 |} <= 255)%nat.
Proof.
  assert (H : command_go ["depth"; "12"; "movetime"; "1000"]%string =
    Some {| is_running := false; stop_now := false; sc_depth := 12; movetime := 1000 |})
    by (vm_compute; reflexivity).
  split; [exact H | exact (proj1 (command_go_result _ _ H))].
Defined.
